(** * fractal-twig: the Twig adapter for Fractal (src/adapter.js)

    A shallow embedding of [TwigAdapter]: the include-path fixer
    ([fixIncludePath]), the template loader registered under the name
    'fractal', the patched [Twig.Template.prototype.render] with its
    [setKeys] helper, the cache eviction handler [unCache], and the
    [render] entry point with its [setEnv] helper.

    JavaScript calls either return or throw, so the functions of the
    adapter live in a small completion monad.  The prologue of [render]
    assigns to properties of the context it is given and to nothing below
    them: for it the context is an object of a heap, and what it holds is
    data.  The patched render clones the context, merges the context of a
    library entity into the clone and has [setKeys] write into every
    object it reaches: for it plain objects, nested ones too, are objects
    of a store, and a property may hold a reference to one. *)

From Stdlib Require Import String Ascii ZArith List Lia.
From stdpp Require Import base option list gmap strings.

Open Scope string_scope.
Open Scope list_scope.
Open Scope stdpp_scope.

(* ===================================================================== *)
(** * JavaScript preliminaries                                            *)
(* ===================================================================== *)

(** What a [throw] carries: an [Error] made by the adapter with its
    message, or an error of the language: a name that is not bound, an
    array that cannot be made, a property read off [undefined], a pattern
    that is no regular expression. *)
Inductive exn :=
  | Error (message : string)
  | ReferenceError (name : string)
  | RangeError
  | TypeError
  | SyntaxError.

(** The outcome of a call. *)
Inductive completion (A : Type) :=
  | Return (a : A)
  | Throw (e : exn).
Arguments Return {A} a.
Arguments Throw {A} e.

(** Sequencing: a throw skips the rest (stdpp's [x ← c; k] notation). *)
#[export] Instance completion_ret : MRet completion := λ A a, Return a.

#[export] Instance completion_bind : MBind completion := λ A B k c,
  match c with
  | Return a => k a
  | Throw e => Throw e
  end.

(** Evaluating a name that no enclosing scope binds. *)
Definition unbound {A} (name : string) : completion A :=
  Throw (ReferenceError name).

(** ** Strings *)

(** [str.startsWith(p)]. *)
Definition startsWith (str p : string) : bool := String.prefix p str.

(** A string is falsy exactly when it is empty. *)
Definition truthy_string (s : string) : bool := negb (String.eqb s "").

(** [undefined] is falsy; a string is judged by [truthy_string]. *)
Definition truthy (v : option string) : bool :=
  match v with
  | Some s => truthy_string s
  | None => false
  end.

(** [str.split(sep)] for a one-character separator: never empty, and the
    empty string splits into one empty chunk. *)
Fixpoint split (sep : ascii) (str : string) : list string :=
  match str with
  | EmptyString => [""]
  | String c rest =>
      if Ascii.eqb c sep then "" :: split sep rest
      else match split sep rest with
           | chunk :: chunks => String c chunk :: chunks
           | [] => [String c ""]
           end
  end.

(** [chunks.join(sep)]. *)
Definition join (sep : string) (chunks : list string) : string :=
  String.concat sep chunks.

(** [array.includes(x)] on an array of strings. *)
Definition includes (array : list string) (x : string) : bool :=
  existsb (String.eqb x) array.

(* ===================================================================== *)
(** * Collaborators                                                       *)
(* ===================================================================== *)

(** Node's [path] module.  The adapter only ever hands it the library root
    and one more string, and never looks inside the answer, so the two
    functions it calls are kept abstract. *)
Class NodePath := {
  Path_join : string → string → string;
  Path_relative : string → string → string
}.

(** One entry of [adapter.views]. *)
Record View := mkView {
  path : string;
  handle : option string;
  content : string
}.

(** The adapter's configuration, after [_.defaults]. *)
Record Config := mkConfig {
  pristine : bool;
  handlePrefix : string;
  importContext : bool
}.

(** [params] as the loader reads and writes it. *)
Record Params := mkParams {
  id : option string;
  precompiled : option string;
  data : option string
}.

(** [new Twig.Template(params)]. *)
Inductive Template := NewTemplate (params : Params).

Definition template_id (t : Template) : option string :=
  let 'NewTemplate p := t in id p.

Definition template_data (t : Template) : option string :=
  let 'NewTemplate p := t in data p.

(** ** Values *)

(** The data a render context holds.  A plain object is the list of its own
    enumerable properties in enumeration order. *)
#[warnings="-register-all"]
Inductive value :=
  | VUndefined
  | VNull
  | VBool (b : bool)
  | VNumber (n : Z)                       (* an integer-valued number *)
  | VString (s : string)
  | VArray (items : list value)
  | VObject (props : list (string * value)) (* a plain object *)
  | VOther (tag : nat).                   (* anything else: a function, a class
                                             instance, a fractional number *)

Abbreviation object := (list (string * value)).

Definition is_undefined (v : value) : bool :=
  match v with
  | VUndefined => true
  | _ => false
  end.

(** [obj[key]]: [undefined] when [obj] has no such property. *)
Fixpoint get (key : string) (obj : object) : value :=
  match obj with
  | [] => VUndefined
  | (k, v) :: rest => if String.eqb k key then v else get key rest
  end.

(** [obj[key] = v]: an existing property keeps its place, a new one is
    enumerated last. *)
Fixpoint set_prop (key : string) (v : value) (obj : object) : object :=
  match obj with
  | [] => [(key, v)]
  | (k, w) :: rest =>
      if String.eqb k key then (k, v) :: rest else (k, w) :: set_prop key v rest
  end.

(** ** The store of plain objects *)

Abbreviation loc := positive.

(** What a property holds in the store: data, which nothing but its one
    holder can reach, or a reference to a plain object of the store, which
    other properties may hold as well. *)
Inductive cell :=
  | Data (v : value)
  | Ref (l : loc).

Abbreviation fields := (list (string * cell)).
Abbreviation store := (gmap loc fields).

(** [obj[key]]. *)
Fixpoint get_cell (key : string) (obj : fields) : cell :=
  match obj with
  | [] => Data VUndefined
  | (k, c) :: rest => if String.eqb k key then c else get_cell key rest
  end.

(** [obj[key] = c]. *)
Fixpoint set_cell (key : string) (c : cell) (obj : fields) : fields :=
  match obj with
  | [] => [(key, c)]
  | (k, d) :: rest =>
      if String.eqb k key then (k, c) :: rest else (k, d) :: set_cell key c rest
  end.

(** The object behind a reference. *)
Definition object_at (h : store) (l : loc) : fields := default [] (h !! l).

(** [{...}]: a new object, behind a reference no object of [h] has. *)
Definition alloc (obj : fields) (h : store) : store * loc :=
  let l := fresh (dom h) in (<[l := obj]> h, l).

(** [ref[key] = c], in place. *)
Definition write (l : loc) (key : string) (c : cell) (h : store) : store :=
  alter (set_cell key c) l h.

(** A set of objects of the store whose references stay inside the set:
    whatever can be reached from one of them is one of them. *)
Definition closed (h : store) (S : gset loc) : Prop :=
  S ⊆ dom h ∧
  ∀ l obj key c, l ∈ S → h !! l = Some obj → (key, Ref c) ∈ obj → c ∈ S.

(** [closed], computed. *)
Definition closedb (h : store) (S : gset loc) : bool :=
  forallb
    (λ l, match h !! l with
          | Some obj =>
              forallb (λ '(_, c), match c with
                                  | Ref c => bool_decide (c ∈ S)
                                  | Data _ => true
                                  end) obj
          | None => false
          end)
    (elements S).

(** ** The component library *)

(** What the patched render uses of the entity it ends up with:
    [getContext()] answers an object of the store, [toJSON()] data. *)
Record Variant := mkVariant {
  getContext : loc;
  toJSON : value
}.

(** What [source.find] returns: a variant ([isVariant] is set), or a
    component, whose [variants().default()] may be missing. *)
Inductive Entity :=
  | AVariant (v : Variant)
  | AComponent (default : option Variant).

Record Source := mkSource {
  fullPath : string;
  find : string → option Entity
}.

(** The adapter: its own fields, and what it inherits from
    [Fractal.Adapter] ([views], [getView]). *)
Record TwigAdapter := mkAdapter {
  config : Config;
  source : Source;
  views : list View;
  getView : string → option View;
  app_config : value
}.

(** ** [setKeys] *)

Definition MAX_SAFE_INTEGER : Z := 9007199254740991.
Definition MAX_ARRAY_LENGTH : Z := 4294967295.

(** lodash iterates a collection with a [length] that is a valid array
    length the way it iterates an array ([isArrayLike]): by index, from [0]
    to [length - 1], whatever its own keys are. *)
Definition arrayLikeLength (obj : object) : option Z :=
  match get "length" obj with
  | VNumber n =>
      if ((0 <=? n) && (n <=? MAX_SAFE_INTEGER))%Z then Some n else None
  | _ => None
  end.

(** [_.isString(key) && ! key.startsWith('_')], for a key of an object. *)
Definition isPublicKey (key : string) : bool := negb (startsWith key "_").

(** [_.compact(_.map(obj, (val, key) => isPublicKey(key) ? key : undefined))]
    over the own keys of [obj]: [_.compact] drops [undefined], and the
    empty key with it. *)
Definition publicKeys (obj : object) : list value :=
  VString <$> List.filter (λ key, isPublicKey key && truthy_string key) obj.*1.

(** [_.each(obj, (val, key) => { if (... isPublicKey(key)) recur(val) })]
    over the own keys of [obj]; [recur] carries the [_.isPlainObject] test. *)
Fixpoint each (recur : value → completion value) (obj : object)
  : completion object :=
  match obj with
  | [] => Return []
  | (key, val) :: rest =>
      val' ← (if isPublicKey key then recur val else Return val);
      rest' ← each recur rest;
      Return ((key, val') :: rest')
  end.

(** The body of [setKeys].  On an array-like [obj] both passes run over
    indices: every key is a number, [_.map] answers an array of [length]
    times [undefined] (which it cannot allocate beyond [MAX_ARRAY_LENGTH])
    and [_.each] recurses nowhere.  Otherwise [_keys], whose name is not
    public, is skipped by the second pass, which is why that pass can be
    run first here; [setKeys_source_order] states the two in the order of
    the source. *)
Definition setKeys_body (recur : value → completion value) (obj : object)
  : completion object :=
  match arrayLikeLength obj with
  | Some n =>
      if (MAX_ARRAY_LENGTH <? n)%Z then Throw RangeError
      else Return (set_prop "_keys" (VArray []) obj)
  | None =>
      obj' ← each recur obj;
      Return (set_prop "_keys" (VArray (publicKeys obj)) obj')
  end.

(** [if (_.isPlainObject(val)) setKeys(val)], on the value in place. *)
Fixpoint setKeys_if_plain (val : value) : completion value :=
  match val with
  | VObject obj => obj' ← setKeys_body setKeys_if_plain obj; Return (VObject obj')
  | _ => Return val
  end.

Definition setKeys (obj : object) : completion object :=
  setKeys_body setKeys_if_plain obj.

(** The calls that [_.each] makes on the properties of [obj], each named by
    the keys that lead to the object it is made on. *)
Definition visited_nested (recur : value → list (list string)) (obj : object)
  : list (list string) :=
  flat_map (λ '(key, val), if isPublicKey key then cons key <$> recur val else [])
    obj.

(** The objects [setKeys] is called on when it starts at [val], each named
    by the keys that lead to it, in call order. *)
Fixpoint visited (val : value) : list (list string) :=
  match val with
  | VObject obj =>
      [] :: match arrayLikeLength obj with
            | Some _ => []
            | None => visited_nested visited obj
            end
  | _ => []
  end.

(** What [each] does to one property. *)
Definition each_step (recur : value → completion value)
  (prop prop' : string * value) : Prop :=
  prop'.1 = prop.1 ∧
  if isPublicKey prop.1 then recur prop.2 = Return prop'.2
  else prop'.2 = prop.2.

(** [setKeys] turns a plain object into a plain object and leaves any other
    value as it is. *)
Definition same_kind (val val' : value) : Prop :=
  match val with
  | VObject _ => ∃ obj', val' = VObject obj'
  | _ => val' = val
  end.

(** No object reached by [setKeys] asks [_.map] for more than an array can
    hold. *)
Fixpoint allocatable (val : value) : bool :=
  match val with
  | VObject obj =>
      match arrayLikeLength obj with
      | Some n => (n <=? MAX_ARRAY_LENGTH)%Z
      | None =>
          forallb (λ '(key, val), if isPublicKey key then allocatable val else true)
            obj
      end
  | _ => true
  end.

(** ** [setKeys], in place *)

(** [arrayLikeLength] and [publicKeys], for an object of the store. *)
Definition arrayLikeLength_at (obj : fields) : option Z :=
  match get_cell "length" obj with
  | Data (VNumber n) =>
      if ((0 <=? n) && (n <=? MAX_SAFE_INTEGER))%Z then Some n else None
  | _ => None
  end.

Definition publicKeys_at (obj : fields) : list value :=
  VString <$> List.filter (λ key, isPublicKey key && truthy_string key) obj.*1.

(** [_.each(obj, ...)] for the object behind [l], over the keys it had when
    the iteration began; the value under a key is read when its turn
    comes.  A plain object behind a reference gets the recursive call;
    one held as data is what [setKeys_if_plain] makes of it. *)
Fixpoint each_at (recur : loc → store → store * completion ()) (l : loc)
  (keys : list string) (h : store) : store * completion () :=
  match keys with
  | [] => (h, Return ())
  | key :: rest =>
      if isPublicKey key then
        match get_cell key (object_at h l) with
        | Ref nested =>
            match recur nested h with
            | (h, Return _) => each_at recur l rest h
            | (h, Throw e) => (h, Throw e)
            end
        | Data val =>
            match setKeys_if_plain val with
            | Return val' => each_at recur l rest (write l key (Data val') h)
            | Throw e => (h, Throw e)
            end
        end
      else each_at recur l rest h
  end.

(** [setKeys(obj)] for the object behind [l], with [fuel] calls left on
    the stack.  What a throw leaves written to the objects of the store
    stays written. *)
Fixpoint setKeys_fuel (fuel : nat) (l : loc) (h : store)
  : store * completion () :=
  match fuel with
  | 0 => (h, Throw RangeError)
  | S fuel =>
      let obj := object_at h l in
      match arrayLikeLength_at obj with
      | Some n =>
          if (MAX_ARRAY_LENGTH <? n)%Z then (h, Throw RangeError)
          else (write l "_keys" (Data (VArray [])) h, Return ())
      | None =>
          let h := write l "_keys" (Data (VArray (publicKeys_at obj))) h in
          each_at (setKeys_fuel fuel) l (object_at h l).*1 h
      end
  end.

(** A chain of objects, each nested in the one before, that is longer than
    the store has objects runs in a circle, and on a circle [setKeys]
    calls itself until the stack is exhausted, which is a [RangeError]
    too: one call more than there are objects is all the stack that
    [setKeys] can use and return ([setKeys_at_enough]). *)
Definition setKeys_at (l : loc) (h : store) : store * completion () :=
  setKeys_fuel (S (size h)) l h.

(** An object that holds data only, as an object of the store. *)
Definition data_fields (obj : object) : fields :=
  (λ '(key, val), (key, Data val)) <$> obj.

(** The object behind [l] nests objects less than [n] deep: no chain of
    references that starts from it is [n] long. *)
Fixpoint nests (h : store) (n : nat) (l : loc) : Prop :=
  match n with
  | 0 => False
  | S n => ∀ key nested, (key, Ref nested) ∈ object_at h l → nests h n nested
  end.

(** What [setKeys] may make of an object: no reference is new, and the
    properties it has no business with are as they were. *)
Definition kept (obj obj' : fields) : Prop :=
  (∀ key c, (key, Ref c) ∈ obj' → (key, Ref c) ∈ obj) ∧
  (∀ key, isPublicKey key = false → key ≠ "_keys" →
          get_cell key obj' = get_cell key obj).

(** What [setKeys] does to the store, as far as the objects that were
    there go: each is still there, and [kept]. *)
Definition kept_store (h h' : store) : Prop :=
  dom h' = dom h ∧
  ∀ l obj obj', h !! l = Some obj → h' !! l = Some obj' → kept obj obj'.

(** ** The heap of context objects *)

Abbreviation heap := (gmap loc object).

(** The object behind a reference ([{}] if there is none). *)
Definition deref (h : heap) (l : loc) : object := default [] (h !! l).

(** [ref[key] = v], in place. *)
Definition assign (l : loc) (key : string) (v : value) (h : heap) : heap :=
  <[l := set_prop key v (deref h l)]> h.

(** lodash's [_.cloneDeep(value)], for a plain object. *)
Class Lodash := {
  cloneDeep : loc → store → store * loc
}.

(** What the adapter has from [_.cloneDeep]: it writes to no object there
    was, and what it returns is a new object from which only new objects
    can be reached. *)
Definition cloneDeep_fresh (lodash : Lodash) : Prop :=
  ∀ value h,
    h ⊆ (cloneDeep value h).1 ∧
    (cloneDeep value h).2 ∈ dom (cloneDeep value h).1 ∖ dom h ∧
    closed (cloneDeep value h).1 (dom (cloneDeep value h).1 ∖ dom h).

(** Fractal's [utils.defaultsDeep(target, defaults)]. *)
Class FractalUtils := {
  defaultsDeep : loc → loc → store → store * loc
}.

(** What the adapter has from [utils.defaultsDeep]: it returns an
    object ... *)
Definition defaultsDeep_object (utils : FractalUtils) : Prop :=
  ∀ target defaults h,
    (defaultsDeep target defaults h).2 ∈ dom (defaultsDeep target defaults h).1.

(** ... and it has its two arguments to go by and nothing else: the
    objects it writes to, and those that can be reached from what it
    returns, are objects that can be reached from the arguments, or new. *)
Definition defaultsDeep_local (utils : FractalUtils) : Prop :=
  ∀ target defaults h S,
    closed h S → target ∈ S → defaults ∈ S →
    (∀ l obj, l ∉ S → h !! l = Some obj →
              (defaultsDeep target defaults h).1 !! l = Some obj) ∧
    dom h ⊆ dom (defaultsDeep target defaults h).1 ∧
    closed (defaultsDeep target defaults h).1
      (S ∪ (dom (defaultsDeep target defaults h).1 ∖ dom h)) ∧
    (defaultsDeep target defaults h).2
      ∈ S ∪ (dom (defaultsDeep target defaults h).1 ∖ dom h).

(** [subject.replace(new RegExp(pattern), replacement)]; the constructor
    may reject the pattern. *)
Class RegExpEngine := {
  RegExp_replace : string → string → string → completion string
}.

(** [meta], as [render] reads it; a field that is missing is [undefined]. *)
Record Meta := mkMeta {
  meta_self : value;
  meta_target : value;
  meta_env : value
}.

(** Twig itself: the [render] method the adapter found on
    [Twig.Template.prototype], and what the promise of the adapter's
    [render] runs (lines 150-167: compile [str] and render it with
    [context]; resolve is return, reject is throw). *)
Class TwigEngine := {
  Template_render : Template → loc → store → store * completion string;
  promise : string → string → loc → Meta → heap → heap * completion string
}.

(* ===================================================================== *)
(** * The adapter                                                         *)
(* ===================================================================== *)

Section Adapter.
Context {Path : NodePath} {lodash : Lodash} {utils : FractalUtils}
  {RegExp : RegExpEngine} {Twig : TwigEngine}.
Variable self : TwigAdapter.

(** ** [isHandle] *)

(** [str && str.startsWith(self._config.handlePrefix)], as a condition. *)
Definition isHandle (str : string) : bool :=
  truthy_string str && startsWith str (handlePrefix (config self)).

(** ** [fixIncludePath] *)

Definition firstLevelFolderNames : list string :=
  ["atoms"; "molecules"; "organisms"].

(** The [for] loop, entered with [i = n - 1]; [source] is what the name
    [source] of line 201 evaluates to.  [Return (Some _)] is the value of
    [newLocation] at the [break], [Return None] is the loop running out
    with [newLocation] still undefined. *)
Fixpoint fixIncludePath_loop (source : completion Source)
  (locationPathChunks : list string) (n : nat) : completion (option string) :=
  match n with
  | 0 => Return None
  | S i =>
      match locationPathChunks !! i with
      | Some chunk =>
          if includes firstLevelFolderNames chunk then
            let newLocationChunks := drop i locationPathChunks in
            source ← source;
            Return (Some (Path_join (fullPath source) (join "/" newLocationChunks)))
          else fixIncludePath_loop source locationPathChunks i
      | None => fixIncludePath_loop source locationPathChunks i
      end
  end.

(** [fixIncludePath] is a method of the class.  The [source] of line 201
    is neither a local nor [this._source]: it is the name of a parameter
    of the constructor (and of [register]), whose scopes do not reach a
    method, and the module declares no such name; so it is unbound where
    line 201 evaluates it. *)
Definition fixIncludePath (location : string) : completion (option string) :=
  let locationPathChunks := split "/" location in
  fixIncludePath_loop (unbound "source") locationPathChunks
    (length locationPathChunks).

(** The index at which the loop stops, if it does. *)
Fixpoint fixIncludePath_anchor (locationPathChunks : list string) (n : nat)
  : option nat :=
  match n with
  | 0 => None
  | S i =>
      match locationPathChunks !! i with
      | Some chunk =>
          if includes firstLevelFolderNames chunk then Some i
          else fixIncludePath_anchor locationPathChunks i
      | None => fixIncludePath_anchor locationPathChunks i
      end
  end.

(** ** The loader registered as 'fractal' *)

(** [_.find(self.views, {path: componentPath})]: the first view whose
    [path] is [componentPath]; a view's path is a string, so none matches
    [undefined]. *)
Definition find_by_path (componentPath : option string) : option View :=
  match componentPath with
  | Some p => List.find (λ view, String.eqb (path view) p) (views self)
  | None => None
  end.

Definition notFoundMessage (location : string) : string :=
  "Template " +:+ location +:+
  " not found; make sure you add a leading forward slash to your path if you're trying to include a component -> include /atoms/button/button.twig for instance".

(** Lines 36-37: the view the loader ends up with. *)
Definition loader_view (location : string) : completion (option View) :=
  componentPath ←
    (if startsWith location "/" then fixIncludePath location
     else Return (Some (Path_join (fullPath (source self)) location)));
  Return (if isHandle location then getView self location
          else find_by_path componentPath).

Definition loader (location : string) (params : Params) : completion Template :=
  if truthy (precompiled params) then
    Return (NewTemplate (mkParams (id params) (precompiled params) (precompiled params)))
  else
    view ← loader_view location;
    match view with
    | None => Throw (Error (notFoundMessage location))
    | Some view =>
        Return (NewTemplate (mkParams (id params) (precompiled params) (Some (content view))))
    end.

(** ** The patched [Twig.Template.prototype.render] *)

(** Lines 59-68: [handle], for a truthy [this.id]. *)
Definition owner_handle (this_id : string) : option string :=
  if isHandle this_id then Some this_id
  else match find_by_path (Some (Path_join (fullPath (source self)) this_id)) with
       | Some view => handle view
       | None => None
       end.

(** Lines 57-73: what [source.find] knows the template as, if its handle
    can be told. *)
Definition owner (this : Template) : completion (option Entity) :=
  if negb (pristine (config self)) && truthy (template_id this) then
    let handle := owner_handle (default "" (template_id this)) in
    if truthy handle then
      ident ← RegExp_replace ("^\" +:+ handlePrefix (config self))
                (default "" handle) "@";
      Return (find (source self) ident)
    else Return None
  else Return None.

(** Line 74: [entity.isVariant ? entity : entity.variants().default()]. *)
Definition select_variant (entity : Entity) : option Variant :=
  match entity with
  | AVariant entity => Some entity
  | AComponent default => default
  end.

(** Lines 76-77: the entity's context is merged under a clone of the
    caller's, and the object that comes of it gets [_self]. *)
Definition merged_context (entity : Variant) (context : loc) (h : store)
  : store * loc :=
  let (h, clone) := cloneDeep context h in
  let (h, context) := defaultsDeep clone (getContext entity) h in
  (write context "_self" (Data (toJSON entity)) h, context).

(** Lines 76-78. *)
Definition import_context (entity : Variant) (context : loc) (h : store)
  : store * completion loc :=
  let (h, context) := merged_context entity context h in
  match setKeys_at context h with
  | (h, Return _) => (h, Return context)
  | (h, Throw e) => (h, Throw e)
  end.

(** Lines 57-82: the context the original [render] is called with.  On a
    component without a default variant line 76 calls [getContext] on
    [undefined]. *)
Definition patch_context (this : Template) (context : loc) (h : store)
  : store * completion loc :=
  match owner this with
  | Throw e => (h, Throw e)
  | Return None => (h, Return context)
  | Return (Some entity) =>
      let entity := select_variant entity in
      if importContext (config self) then
        match entity with
        | Some entity => import_context entity context h
        | None => (h, Throw TypeError)
        end
      else (h, Return context)
  end.

Definition patched_render (this : Template) (context : loc) (h : store)
  : store * completion string :=
  match patch_context this context h with
  | (h, Return context) => Template_render this context h
  | (h, Throw e) => (h, Throw e)
  end.

(** ** [unCache] *)

(** What a change event carries: a view, or only its path. *)
Inductive changed :=
  | ChangedPath (p : string)
  | ChangedView (view : View).

Definition changed_path (view : changed) : string :=
  match view with
  | ChangedPath p => p
  | ChangedView view => path view
  end.

(** [view.handle]: a string has no such property. *)
Definition changed_handle (view : changed) : option string :=
  match view with
  | ChangedPath _ => None
  | ChangedView view => handle view
  end.

(** [Twig.Templates.registry]: compiled templates (objects, all truthy) by
    key. *)
Definition unCache (view : changed) (registry : gmap string Template)
  : gmap string Template :=
  let path := Path_relative (fullPath (source self)) (changed_path view) in
  let registry :=
    match changed_handle view with
    | Some handle =>
        if truthy_string handle && bool_decide (is_Some (registry !! handle))
        then delete handle registry else registry
    | None => registry
    end in
  if bool_decide (is_Some (registry !! path)) then delete path registry
  else registry.

(** ** [render] *)

(** [if (context[key] === undefined && value !== undefined) context[key] = value]. *)
Definition setEnv (key : string) (val : value) (context : loc) (h : heap) : heap :=
  if is_undefined (get key (deref h context)) && negb (is_undefined val)
  then assign context key val h else h.

(** The same test and assignment on the object behind [context]. *)
Definition setEnv_object (key : string) (val : value) (obj : object) : object :=
  if is_undefined (get key obj) && negb (is_undefined val)
  then set_prop key val obj else obj.

(** Lines 141-148. *)
Definition render_setEnv (context : loc) (meta : Meta) (h : heap) : heap :=
  if negb (pristine (config self)) then
    let h := setEnv "_self" (meta_self meta) context h in
    let h := setEnv "_target" (meta_target meta) context h in
    let h := setEnv "_env" (meta_env meta) context h in
    setEnv "_config" (app_config self) context h
  else h.

(** The reserved keys, each with the value [render] has for it. *)
Definition reserved (meta : Meta) : list (string * value) :=
  [("_self", meta_self meta); ("_target", meta_target meta);
   ("_env", meta_env meta); ("_config", app_config self)].

(** What the four calls make of the object behind [context]. *)
Definition render_setEnv_object (meta : Meta) (obj : object) : object :=
  if negb (pristine (config self)) then
    setEnv_object "_config" (app_config self)
      (setEnv_object "_env" (meta_env meta)
         (setEnv_object "_target" (meta_target meta)
            (setEnv_object "_self" (meta_self meta) obj)))
  else obj.

(** [meta = meta || {}]. *)
Definition meta_or_empty (meta : option Meta) : Meta :=
  default (mkMeta VUndefined VUndefined VUndefined) meta.

Definition render (path str : string) (context : loc) (meta : option Meta)
  (h : heap) : heap * completion string :=
  let meta := meta_or_empty meta in
  let h := render_setEnv context meta h in
  promise path str context meta h.

End Adapter.

(* ===================================================================== *)
(** * [module.exports]                                                    *)
(* ===================================================================== *)

(** The [config] handed to the module: any of its keys may be missing (or
    [undefined]), and so may the whole object. *)
Record Options := mkOptions {
  opt_pristine : option bool;
  opt_handlePrefix : option string;
  opt_importContext : option bool
}.

(** Lines 212-216:
    [_.defaults(config || {}, {pristine: false, handlePrefix: '@', importContext: false})]. *)
Definition module_config (config : option Options) : Config :=
  let config := default (mkOptions None None None) config in
  mkConfig (default false (opt_pristine config))
    (default "@" (opt_handlePrefix config))
    (default false (opt_importContext config)).

(* ===================================================================== *)
(** * Reference collaborators                                             *)
(* ===================================================================== *)

(** Executable stand-ins for the collaborators, to run the adapter on
    concrete inputs. *)

(** ** Node's POSIX [path] *)

Module Posix.

Definition skipped (chunk : string) : bool :=
  String.eqb chunk "" || String.eqb chunk ".".

(** [normalizeString]: drop empty chunks and [.], let [..] cancel the chunk
    before it; [stack] is the result so far, last chunk first. *)
Fixpoint normalizeChunks (allowAboveRoot : bool) (stack chunks : list string)
  : list string :=
  match chunks with
  | [] => rev stack
  | chunk :: rest =>
      if skipped chunk then normalizeChunks allowAboveRoot stack rest
      else if String.eqb chunk ".." then
        match stack with
        | top :: below =>
            if String.eqb top ".." then
              normalizeChunks allowAboveRoot
                (if allowAboveRoot then ".." :: stack else stack) rest
            else normalizeChunks allowAboveRoot below rest
        | [] =>
            normalizeChunks allowAboveRoot
              (if allowAboveRoot then [".."] else []) rest
        end
      else normalizeChunks allowAboveRoot (chunk :: stack) rest
  end.

Definition isAbsolute (p : string) : bool := startsWith p "/".

Definition endsWithSlash (p : string) : bool :=
  match last (split "/" p) with
  | Some "" => negb (String.eqb p "")
  | _ => false
  end.

Definition normalize (p : string) : string :=
  if String.eqb p "" then "."
  else
    let body := join "/" (normalizeChunks (negb (isAbsolute p)) [] (split "/" p)) in
    if String.eqb body "" then
      if isAbsolute p then "/" else if endsWithSlash p then "./" else "."
    else
      let body := if endsWithSlash p then body +:+ "/" else body in
      if isAbsolute p then "/" +:+ body else body.

Definition join2 (a b : string) : string :=
  if String.eqb a "" then (if String.eqb b "" then "." else normalize b)
  else if String.eqb b "" then normalize a
  else normalize (a +:+ "/" +:+ b).

(** [resolve(p)] as chunks below the root, for the working directory [cwd]. *)
Definition resolveChunks (cwd p : string) : list string :=
  normalizeChunks false []
    (split "/" (if isAbsolute p then p else cwd +:+ "/" +:+ p)).

Fixpoint dropCommon (from to : list string) : list string * list string :=
  match from, to with
  | f :: from', t :: to' =>
      if String.eqb f t then dropCommon from' to' else (from, to)
  | _, _ => (from, to)
  end.

Definition relative (cwd from to : string) : string :=
  let (up, down) := dropCommon (resolveChunks cwd from) (resolveChunks cwd to) in
  join "/" (((λ _, "..") <$> up) ++ down).

End Posix.

Definition posix (cwd : string) : NodePath :=
  {| Path_join := Posix.join2; Path_relative := Posix.relative cwd |}.

(** ** Footprints *)

(** What a function that only makes objects does to the store: the
    objects there were are as they were, and the new ones refer to new
    ones. *)
Definition grown (h h' : store) : Prop :=
  h ⊆ h' ∧ closed h' (dom h' ∖ dom h).

(** A merge into an object of a closed set, from an object of the set,
    writes to objects of the set and leaves the set closed. *)
Definition confined (S : gset loc) (h h' : store) : Prop :=
  closed h' S ∧ ∀ l, l ∉ S → h' !! l = h !! l.

(** ** lodash's [_.cloneDeep] *)

(** The copy of the properties [obj]: data as they are, and in place of a
    reference one to the copy [recur] makes. *)
Fixpoint clone_fields (recur : loc → store → store * loc) (obj : fields)
  (h : store) : store * fields :=
  match obj with
  | [] => (h, [])
  | (key, Data v) :: rest =>
      let (h, rest') := clone_fields recur rest h in
      (h, (key, Data v) :: rest')
  | (key, Ref l) :: rest =>
      let (h, l') := recur l h in
      let (h, rest') := clone_fields recur rest h in
      (h, (key, Ref l') :: rest')
  end.

(** The copy of the object behind [l], [fuel] objects deep; below that
    depth, which no chain of nested objects reaches unless it runs in a
    circle, the copy is cut short. *)
Fixpoint cloneDeep_fuel (fuel : nat) (l : loc) (h : store) : store * loc :=
  match fuel with
  | 0 => alloc [] h
  | S fuel =>
      let (h', copy) := clone_fields (cloneDeep_fuel fuel) (object_at h l) h in
      alloc copy h'
  end.

(** The copy is right for a context that is a tree: an object that is
    held twice is copied twice here, and once by lodash. *)
Definition cloneDeep_tree (l : loc) (h : store) : store * loc :=
  cloneDeep_fuel (S (size h)) l h.

Definition lodashTree : Lodash :=
  {| cloneDeep := cloneDeep_tree |}.

(** ** Fractal's [utils.defaultsDeep] *)

(** [_.mergeWith(obj, src, customizer)] with the customizer of
    [defaultsDeep], one property of [src] after the other: where both
    sides hold a plain object, the one of [src] is merged into the one of
    [obj], in place; [undefined] fills a gap and changes nothing else;
    any other value of [src], a reference to a plain object among them,
    is assigned as it is.  (Plain objects held as data are taken for
    values here, and a new key is enumerated last even if it is an array
    index, which JavaScript enumerates first; the examples hold their
    plain objects behind references and have no such key.) *)
Fixpoint merge_fields (recur : loc → loc → store → store) (obj : loc)
  (src : fields) (h : store) : store :=
  match src with
  | [] => h
  | (key, srcValue) :: rest =>
      let h :=
        match srcValue, get_cell key (object_at h obj) with
        | Ref s, Ref o => recur o s h
        | Data VUndefined, _ =>
            if bool_decide (key ∈ (object_at h obj).*1) then h
            else write obj key srcValue h
        | _, _ => write obj key srcValue h
        end in
      merge_fields recur obj rest h
  end.

Fixpoint mergeWith_fuel (fuel : nat) (obj src : loc) (h : store) : store :=
  match fuel with
  | 0 => h
  | S fuel => merge_fields (mergeWith_fuel fuel) obj (object_at h src) h
  end.

(** [defaults], then [target], merged into a new object. *)
Definition defaultsDeep_tree (target defaults : loc) (h : store) : store * loc :=
  let (h, output) := alloc [] h in
  let h := mergeWith_fuel (S (size h)) output defaults h in
  (mergeWith_fuel (S (size h)) output target h, output).

Definition fractalUtils : FractalUtils :=
  {| defaultsDeep := defaultsDeep_tree |}.

(** ** Regular expressions *)

(** The patterns the adapter builds are [^\] followed by the handle
    prefix; for a prefix of punctuation, such as [@], that is the prefix
    itself at the start of the subject.  A prefix that begins with a
    letter or a digit, which the backslash would turn into a class or a
    control character, is not what this stand-in is for. *)
Definition replacePrefix (pattern subject replacement : string)
  : completion string :=
  match pattern with
  | String "^" (String "\" (String c p)) =>
      let prefix := String c p in
      if startsWith subject prefix then
        Return (replacement +:+
                String.substring (String.length prefix)
                  (String.length subject - String.length prefix) subject)
      else Return subject
  | _ => Throw SyntaxError
  end.

Definition regExpEngine : RegExpEngine :=
  {| RegExp_replace := replacePrefix |}.

(** ** Twig *)

(** An engine that renders a template to its own source and never touches
    an object. *)
Definition echoEngine : TwigEngine :=
  {| Template_render := λ this context h, (h, Return (default "" (template_data this)));
     promise := λ path str context meta h, (h, Return str) |}.

(* ===================================================================== *)
(** * A small component library                                           *)
(* ===================================================================== *)

Module Demo.

Definition root : string := "/lib/components".

Definition button : View :=
  mkView "/lib/components/atoms/button/button.twig" (Some "@button")
    "<button>{{ label }}</button>".

Definition menu : View :=
  mkView "/lib/components/organisms/menu/menu.twig" (Some "@menu")
    "<nav>{% include '/atoms/button/button.twig' %}</nav>".

(** The default variant of the button; its context is the object behind
    reference 3 of [pageStore]. *)
Definition buttonDefault : Variant :=
  mkVariant 3%positive (VObject [("handle", VString "button--default")]).

Definition entities (ident : string) : option Entity :=
  if String.eqb ident "@button" then Some (AComponent (Some buttonDefault))
  else if String.eqb ident "@button--default" then Some (AVariant buttonDefault)
  else if String.eqb ident "@menu" then Some (AComponent None)
  else None.

Definition library : list View := [button; menu].

Definition byHandle (h : string) : option View :=
  List.find (λ view, bool_decide (handle view = Some h)) library.

Definition adapter (importContext : bool) : TwigAdapter :=
  mkAdapter (mkConfig false "@" importContext) (mkSource root entities)
    library byHandle (VObject [("project", VString "demo")]).

Definition noParams : Params := mkParams None None None.

(** The same library under a handle prefix that is a slash. *)
Definition slashAdapter : TwigAdapter :=
  mkAdapter (mkConfig false "/" false) (mkSource root entities)
    library byHandle VUndefined.

(** The collaborators of the examples. *)
Definition Path : NodePath := posix "/".
Definition lodash : Lodash := lodashTree.
Definition utils : FractalUtils := fractalUtils.
Definition RegExp : RegExpEngine := regExpEngine.
Definition Twig : TwigEngine := echoEngine.

(** The context of a page that includes the button. *)
Definition page : object :=
  [("title", VString "Home"); ("_self", VObject [("handle", VString "home")])].

Definition pageHeap : heap := {[ 1%positive := page ]}.

(** The store when the page includes the button: the context of the page
    (1) with the object nested in it (2), and the context of the button's
    default variant (3) with the object nested in it (4). *)
Definition pageStore : store :=
  {[ 1%positive := [("title", Data (VString "Home")); ("hero", Ref 2%positive);
                    ("_self", Data (VObject [("handle", VString "home")]))];
     2%positive := [("image", Data (VString "hero.png"))];
     3%positive := [("label", Data (VString "OK")); ("icon", Ref 4%positive)];
     4%positive := [("name", Data (VString "check"))] ]}.

Definition libraryObjects : gset loc := {[ 3%positive; 4%positive ]}.

(** A context with nested objects, private keys, an empty key and an
    array-like object. *)
Definition nested : object :=
  [("title", VString "Home");
   ("_self", VObject [("handle", VString "home")]);
   ("hero", VObject [("image", VObject [("src", VString "hero.png")]);
                     ("_cache", VObject [("hit", VBool true)])]);
   ("", VObject [("anonymous", VNull)]);
   ("tags", VArray [VString "a"; VObject [("inArray", VNull)]]);
   ("list", VObject [("length", VNumber 2); ("first", VObject [])])].

(** What [render] is told about the page. *)
Definition meta : Meta :=
  mkMeta (VObject [("handle", VString "button")]) (VString "preview") VUndefined.

Definition compiled (view : View) : Template :=
  NewTemplate (mkParams (handle view) None (Some (content view))).

(** A template that is known by the handle of a variant. *)
Definition buttonVariant : Template :=
  NewTemplate (mkParams (Some "@button--default") None None).

(** Source handed over by [render], ready to compile. *)
Definition precompiledParams : Params :=
  mkParams (Some "@menu") (Some "<p>{{ title }}</p>") None.

(** What a later [render] of the same context is told. *)
Definition laterMeta : Meta :=
  mkMeta VUndefined (VString "export") (VString "production").

(** A registry with the button under both of its keys. *)
Definition registry : gmap string Template :=
  {[ "atoms/button/button.twig" := compiled button;
     "@button" := compiled button;
     "@menu" := compiled menu ]}.

End Demo.

(* ===================================================================== *)
(** * Properties                                                          *)
(* ===================================================================== *)

(** ** Strings *)

Lemma split_not_nil sep str : split sep str ≠ [].
Proof.
  destruct str as [|c rest]; simpl; [done|].
  destruct (Ascii.eqb c sep); [done|]. by destruct (split sep rest).
Qed.

Lemma split_app sep p q :
  split sep (p +:+ String sep q) = split sep p ++ split sep q.
Proof.
  induction p as [|c p IH]; simpl.
  - by rewrite Ascii.eqb_refl.
  - destruct (Ascii.eqb c sep); [by rewrite IH|].
    rewrite IH. pose proof (split_not_nil sep p) as Hne.
    by destruct (split sep p).
Qed.

Lemma truthy_string_true s : truthy_string s = true ↔ s ≠ "".
Proof.
  unfold truthy_string. destruct (String.eqb_spec s ""); naive_solver.
Qed.

(** ** [fixIncludePath] *)

(** Where the loop stops: nowhere, when no chunk below [n] is a folder
    name; or at the last chunk below [n] that is one. *)
Lemma fixIncludePath_anchor_cases chunks n :
  match fixIncludePath_anchor chunks n with
  | None =>
      ∀ j c, j < n → chunks !! j = Some c →
        includes firstLevelFolderNames c = false
  | Some a =>
      a < n ∧
      (∃ chunk, chunks !! a = Some chunk ∧
                includes firstLevelFolderNames chunk = true) ∧
      (∀ j c, a < j < n → chunks !! j = Some c →
         includes firstLevelFolderNames c = false)
  end.
Proof.
  induction n as [|i IH]; cbn [fixIncludePath_anchor].
  - intros; lia.
  - assert (match fixIncludePath_anchor chunks i with
            | None =>
                (∀ c, chunks !! i = Some c →
                   includes firstLevelFolderNames c = false) →
                ∀ j c, j < S i → chunks !! j = Some c →
                  includes firstLevelFolderNames c = false
            | Some a =>
                (∀ c, chunks !! i = Some c →
                   includes firstLevelFolderNames c = false) →
                a < S i ∧
                (∃ chunk, chunks !! a = Some chunk ∧
                          includes firstLevelFolderNames chunk = true) ∧
                (∀ j c, a < j < S i → chunks !! j = Some c →
                   includes firstLevelFolderNames c = false)
            end) as Hskip.
    { destruct (fixIncludePath_anchor chunks i) as [a|].
      - destruct IH as (Ha & Hchunk & Hlast). intros Hi.
        split; [lia|]. split; [done|]. intros j c Hj Hc.
        destruct (decide (j = i)) as [->|]; [by apply Hi|].
        apply (Hlast j); [lia|done].
      - intros Hi j c Hj Hc.
        destruct (decide (j = i)) as [->|]; [by apply Hi|].
        apply (IH j); [lia|done]. }
    destruct (chunks !! i) as [chunk|] eqn:Hi.
    + destruct (includes firstLevelFolderNames chunk) eqn:Hin.
      * split; [lia|]. split; [by exists chunk|]. intros; lia.
      * destruct (fixIncludePath_anchor chunks i); apply Hskip;
          by intros c [= <-].
    + destruct (fixIncludePath_anchor chunks i); by apply Hskip.
Qed.

(** The last folder name is the one the loop stops at. *)
Lemma fixIncludePath_anchor_rightmost chunks a chunk :
  chunks !! a = Some chunk →
  includes firstLevelFolderNames chunk = true →
  (∀ j c, a < j → chunks !! j = Some c →
     includes firstLevelFolderNames c = false) →
  fixIncludePath_anchor chunks (length chunks) = Some a.
Proof.
  intros Ha Hin Hlast.
  pose proof (fixIncludePath_anchor_cases chunks (length chunks)) as Hc.
  pose proof (lookup_lt_Some _ _ _ Ha) as Hlt.
  destruct (fixIncludePath_anchor chunks (length chunks)) as [b|].
  - destruct Hc as (Hb & (c & Hbc & Hbin) & Hblast). f_equal.
    destruct (Nat.lt_trichotomy a b) as [Hab|[->|Hab]]; [|done|].
    + rewrite (Hlast b c Hab Hbc) in Hbin. done.
    + rewrite (Hblast a chunk) in Hin; [done|lia|done].
  - rewrite (Hc a chunk Hlt Ha) in Hin. done.
Qed.

Lemma fixIncludePath_anchor_none chunks :
  (∀ c, c ∈ chunks → includes firstLevelFolderNames c = false) →
  fixIncludePath_anchor chunks (length chunks) = None.
Proof.
  intros Hno.
  pose proof (fixIncludePath_anchor_cases chunks (length chunks)) as Hc.
  destruct (fixIncludePath_anchor chunks (length chunks)) as [b|]; [|done].
  destruct Hc as (_ & (c & Hbc & Hbin) & _).
  rewrite Hno in Hbin; [done|]. by eapply list_elem_of_lookup_2.
Qed.

Lemma fixIncludePath_anchor_some chunks chunk :
  chunk ∈ chunks → includes firstLevelFolderNames chunk = true →
  ∃ a, fixIncludePath_anchor chunks (length chunks) = Some a.
Proof.
  intros Hchunk Hin.
  pose proof (fixIncludePath_anchor_cases chunks (length chunks)) as Hc.
  destruct (fixIncludePath_anchor chunks (length chunks)) as [a|]; [by eexists|].
  apply list_elem_of_lookup in Hchunk as [j Hj].
  rewrite (Hc j chunk) in Hin; [done| |done]. by eapply lookup_lt_Some.
Qed.

Section FixIncludePath.
Context {Path : NodePath}.

(** The loop evaluates [source] when, and only when, it stops at a chunk. *)
Lemma fixIncludePath_loop_anchor source chunks n :
  fixIncludePath_loop source chunks n =
  match fixIncludePath_anchor chunks n with
  | Some a =>
      source ← source;
      Return (Some (Path_join (fullPath source) (join "/" (drop a chunks))))
  | None => Return None
  end.
Proof.
  induction n as [|i IH]; cbn [fixIncludePath_loop fixIncludePath_anchor];
    [done|].
  destruct (chunks !! i) as [chunk|]; [|done].
  by destruct (includes firstLevelFolderNames chunk).
Qed.

(** So [fixIncludePath] returns [undefined] or throws. *)
Lemma fixIncludePath_outcome location :
  fixIncludePath location =
  match fixIncludePath_anchor (split "/" location)
          (length (split "/" location)) with
  | Some _ => Throw (ReferenceError "source")
  | None => Return None
  end.
Proof.
  unfold fixIncludePath. rewrite fixIncludePath_loop_anchor.
  by destruct (fixIncludePath_anchor _ _).
Qed.

Lemma fixIncludePath_throws location chunk :
  chunk ∈ split "/" location →
  includes firstLevelFolderNames chunk = true →
  fixIncludePath location = Throw (ReferenceError "source").
Proof.
  intros Hchunk Hin. rewrite fixIncludePath_outcome.
  by destruct (fixIncludePath_anchor_some _ _ Hchunk Hin) as [a ->].
Qed.

(** What line 201 is after.  Had the method read the source of the adapter
    ([this._source], as [render] does), a location with a folder name
    among its chunks would resolve to the library root joined with the
    chunks from the last folder name on, and one that ends in
    [/atoms/button/button.twig] to that path under the root, whatever
    precedes it. *)
Lemma fixIncludePath_loop_with_source (library : Source) location :
  (∀ a chunk,
     split "/" location !! a = Some chunk →
     includes firstLevelFolderNames chunk = true →
     (∀ j c, a < j → split "/" location !! j = Some c →
        includes firstLevelFolderNames c = false) →
     fixIncludePath_loop (Return library) (split "/" location)
       (length (split "/" location)) =
     Return (Some (Path_join (fullPath library)
                     (join "/" (drop a (split "/" location)))))) ∧
  (∀ nesting, location = nesting +:+ "/atoms/button/button.twig" →
     fixIncludePath_loop (Return library) (split "/" location)
       (length (split "/" location)) =
     Return (Some (Path_join (fullPath library) "atoms/button/button.twig"))).
Proof.
  split.
  - intros a chunk Ha Hin Hlast. rewrite fixIncludePath_loop_anchor.
    by rewrite (fixIncludePath_anchor_rightmost _ a chunk).
  - intros nesting ->. rewrite fixIncludePath_loop_anchor.
    change (nesting +:+ "/atoms/button/button.twig")
      with (nesting +:+ String "/" "atoms/button/button.twig").
    rewrite split_app.
    change (split "/" "atoms/button/button.twig")
      with ["atoms"; "button"; "button.twig"].
    rewrite (fixIncludePath_anchor_rightmost _ (length (split "/" nesting)) "atoms").
    + simpl. by rewrite drop_app_length.
    + by rewrite lookup_app_r, Nat.sub_diag.
    + done.
    + intros j c Hj. rewrite lookup_app_r by lia.
      destruct (j - length (split "/" nesting)) as [|[|[|k]]] eqn:Hk;
        [lia| | |]; simpl; intros [= <-] || intros [=]; done.
Qed.

End FixIncludePath.

(** ** The loader *)

Section Loader.
Context {Path : NodePath}.
Variable self : TwigAdapter.

(** C1 (as the code has it): for a rooted location none of whose chunks is
    a first-level folder name, [fixIncludePath] does not fail: it returns
    [undefined].  The failure is raised one step later, by the loader,
    which finds no view under an undefined path and throws its "not found"
    error (unless the location is a handle or the source came
    precompiled). *)
Theorem fixIncludePath_no_folder_returns_undefined location :
  startsWith location "/" = true →
  (∀ chunk, chunk ∈ split "/" location →
     includes firstLevelFolderNames chunk = false) →
  fixIncludePath location = Return None ∧
  ∀ params, isHandle self location = false →
    truthy (precompiled params) = false →
    loader self location params = Throw (Error (notFoundMessage location)).
Proof.
  intros Hrooted Hno.
  assert (fixIncludePath location = Return None) as Hfix.
  { by rewrite fixIncludePath_outcome, fixIncludePath_anchor_none. }
  split; [done|]. intros params Hhandle Hpre.
  unfold loader, loader_view. by rewrite Hpre, Hrooted, Hfix, Hhandle.
Qed.

(** A rooted location with a folder name among its chunks never gets as
    far as the lookup: the loader passes on what [fixIncludePath] threw. *)
Lemma loader_rooted_with_folder_throws location chunk params :
  startsWith location "/" = true →
  chunk ∈ split "/" location →
  includes firstLevelFolderNames chunk = true →
  truthy (precompiled params) = false →
  loader self location params = Throw (ReferenceError "source").
Proof.
  intros Hrooted Hchunk Hin Hpre. unfold loader, loader_view.
  by rewrite Hpre, Hrooted, (fixIncludePath_throws location chunk).
Qed.

(** C6: a location that is neither rooted nor a handle is joined onto the
    library root as it is, and the view is looked up by that path; the
    loader is given, and uses, nothing about the including template. *)
Theorem loader_relative_joins_onto_root location params :
  startsWith location "/" = false →
  isHandle self location = false →
  truthy (precompiled params) = false →
  loader_view self location =
    Return (List.find
              (λ view, String.eqb (path view)
                         (Path_join (fullPath (source self)) location))
              (views self)) ∧
  loader self location params =
    match List.find
            (λ view, String.eqb (path view)
                       (Path_join (fullPath (source self)) location))
            (views self) with
    | Some view =>
        Return (NewTemplate
                  (mkParams (id params) (precompiled params) (Some (content view))))
    | None => Throw (Error (notFoundMessage location))
    end.
Proof.
  intros Hrel Hhandle Hpre. unfold loader, loader_view.
  rewrite Hpre, Hrel, Hhandle. simpl. split; [done|].
  by destruct (List.find _ _).
Qed.

(** Where the lookup of lines 36-37 does end with no view (a handle
    [getView] does not know, a relative location no view has the joined
    path of, a rooted location without a folder name), the loader throws
    an error whose message names the location and tells the caller to add
    a leading forward slash. *)
Lemma loader_not_found location params :
  truthy (precompiled params) = false →
  loader_view self location = Return None →
  loader self location params = Throw (Error (notFoundMessage location)) ∧
  ∃ rest,
    notFoundMessage location =
      "Template " +:+ location +:+
      " not found; make sure you add a leading forward slash to your path" +:+ rest.
Proof.
  intros Hpre Hview. split.
  - unfold loader. by rewrite Hpre, Hview.
  - by eexists.
Qed.

End Loader.

(** ** The loader on the small library *)

Section LoaderExamples.
#[local] Existing Instance Demo.Path.

Ltac each_chunk H :=
  vm_compute in H;
  repeat (apply elem_of_cons in H as [->|H]; [reflexivity|]);
  by apply elem_of_nil in H.

(** C1, as the specification states it, fails at [/pages/home.twig]: the
    location is rooted, no chunk of it is a folder name, and
    [fixIncludePath] returns [undefined] where the specification has it
    throw. *)
Lemma fixIncludePath_pages_home_returns_undefined :
  startsWith "/pages/home.twig" "/" = true ∧
  (∀ chunk, chunk ∈ split "/" "/pages/home.twig" →
     includes firstLevelFolderNames chunk = false) ∧
  fixIncludePath "/pages/home.twig" = Return None ∧
  ¬ ∃ e, fixIncludePath "/pages/home.twig" = Throw e.
Proof.
  split; [reflexivity|]. split; [intros chunk Hin; each_chunk Hin|].
  split; [reflexivity|]. intros [e He]. vm_compute in He. discriminate He.
Qed.

Lemma fixIncludePath_no_folder_returns_undefined_witness :
  fixIncludePath "/pages/home.twig" = Return None ∧
  ∀ params, isHandle (Demo.adapter false) "/pages/home.twig" = false →
    truthy (precompiled params) = false →
    loader (Demo.adapter false) "/pages/home.twig" params =
      Throw (Error (notFoundMessage "/pages/home.twig")).
Proof.
  apply (fixIncludePath_no_folder_returns_undefined (Demo.adapter false)
           "/pages/home.twig"); [reflexivity|].
  intros chunk Hin; each_chunk Hin.
Defined.

(** C2 at [/atoms/button/button.twig]: the loop stops at [atoms], line 201
    evaluates [source], which no scope of the method binds, and the call
    ends in a [ReferenceError] where the specification has it return
    [/lib/components/atoms/button/button.twig]. *)
Theorem fixIncludePath_button_source_unbound :
  fixIncludePath "/atoms/button/button.twig" = Throw (ReferenceError "source") ∧
  fixIncludePath_loop (Return (source (Demo.adapter false)))
    (split "/" "/atoms/button/button.twig")
    (length (split "/" "/atoms/button/button.twig"))
  = Return (Some "/lib/components/atoms/button/button.twig").
Proof. split; reflexivity. Qed.

(** With the source of the adapter for [source], the same include written
    from depth 0, 1 and 3 would reach the button. *)
Example fixIncludePath_loop_depths :
  let resolve location :=
    fixIncludePath_loop (Return (source (Demo.adapter false)))
      (split "/" location) (length (split "/" location)) in
  resolve "/atoms/button/button.twig"
    = Return (Some "/lib/components/atoms/button/button.twig") ∧
  resolve "/organisms/menu/atoms/button/button.twig"
    = Return (Some "/lib/components/atoms/button/button.twig") ∧
  resolve "/organisms/page/molecules/card/organisms/menu/atoms/button/button.twig"
    = Return (Some "/lib/components/atoms/button/button.twig").
Proof. repeat split; reflexivity. Qed.

Lemma loader_relative_joins_onto_root_witness :
  loader_view (Demo.adapter false) "atoms/button/button.twig" =
    Return (Some Demo.button) ∧
  loader (Demo.adapter false) "atoms/button/button.twig" Demo.noParams =
    Return (NewTemplate (mkParams None None (Some (content Demo.button)))).
Proof.
  generalize (loader_relative_joins_onto_root (Demo.adapter false)
                "atoms/button/button.twig" Demo.noParams
                eq_refl eq_refl eq_refl).
  vm_compute. exact (λ run, run).
Defined.

(** C7 at [/atoms/missing/missing.twig]: no view of the library is found
    for it, and the loader fails, but with the [ReferenceError] of
    [fixIncludePath] (the defect of C2), not with its "not found" error;
    for a location that is not rooted the same miss is reported as the
    specification says. *)
Theorem loader_missing_atom_source_unbound :
  (∀ view, view ∈ views (Demo.adapter false) →
     path view ≠ "/lib/components/atoms/missing/missing.twig") ∧
  loader (Demo.adapter false) "/atoms/missing/missing.twig" Demo.noParams
    = Throw (ReferenceError "source") ∧
  loader (Demo.adapter false) "atoms/missing/missing.twig" Demo.noParams
    = Throw (Error (notFoundMessage "atoms/missing/missing.twig")).
Proof.
  split; [|split; reflexivity].
  intros view Hin. vm_compute in Hin.
  repeat (apply elem_of_cons in Hin as [->|Hin]; [discriminate|]).
  by apply elem_of_nil in Hin.
Qed.

End LoaderExamples.

(** ** [unCache] *)

Lemma evict_if_present {V} (key : string) (registry : gmap string V) :
  (if bool_decide (is_Some (registry !! key)) then delete key registry
   else registry) = delete key registry.
Proof.
  case_bool_decide as Hk; [done|]. symmetry. apply delete_id.
  by apply eq_None_not_Some.
Qed.

Section UnCache.
Context {Path : NodePath}.
Variable self : TwigAdapter.

(** [unCache] is two deletions: of the handle, when the view carries a
    truthy one, and of the relative path. *)
Lemma unCache_deletes view registry :
  unCache self view registry =
  delete (Path_relative (fullPath (source self)) (changed_path view))
    (match changed_handle view with
     | Some handle => if truthy_string handle then delete handle registry
                      else registry
     | None => registry
     end).
Proof.
  unfold unCache. rewrite evict_if_present. f_equal.
  destruct (changed_handle view) as [hd|]; [|done].
  destruct (truthy_string hd); simpl; [|done].
  by rewrite evict_if_present.
Qed.

(** C5: after [unCache] is handed a view whose path, relative to the
    library root, is [P] and whose handle is [H], the registry has no entry
    under [P] and none under [H]; with neither entry there to begin with
    the registry is left as it was, and a second call changes nothing. *)
Theorem unCache_evicts_path_and_handle view P H registry :
  P = Path_relative (fullPath (source self)) (path view) →
  handle view = Some H →
  H ≠ "" →
  unCache self (ChangedView view) registry !! P = None ∧
  unCache self (ChangedView view) registry !! H = None ∧
  (registry !! P = None → registry !! H = None →
     unCache self (ChangedView view) registry = registry) ∧
  unCache self (ChangedView view) (unCache self (ChangedView view) registry)
    = unCache self (ChangedView view) registry.
Proof.
  intros -> Hhandle Hne. apply truthy_string_true in Hne.
  rewrite !unCache_deletes. simpl. rewrite Hhandle, Hne.
  repeat split.
  - apply lookup_delete_eq.
  - rewrite lookup_delete. case_decide; [done|]. apply lookup_delete_eq.
  - intros HP HH. by rewrite (delete_id _ _ HH), (delete_id _ _ HP).
  - apply map_eq. intros key. rewrite !lookup_delete.
    repeat case_decide; done.
Qed.

(** A change that carries only a path evicts only the path entry. *)
Lemma unCache_path_only p registry :
  unCache self (ChangedPath p) registry =
  delete (Path_relative (fullPath (source self)) p) registry.
Proof. by rewrite unCache_deletes. Qed.

End UnCache.

(** ** [setEnv] and the prologue of [render] *)

Lemma get_set_prop_eq key v obj : get key (set_prop key v obj) = v.
Proof.
  induction obj as [|[k w] rest IH]; simpl.
  - by rewrite String.eqb_refl.
  - destruct (String.eqb k key) eqn:Hk; simpl; by rewrite Hk.
Qed.

Lemma get_set_prop_ne key key' v obj :
  key ≠ key' → get key' (set_prop key v obj) = get key' obj.
Proof.
  intros Hne. pose proof (proj2 (String.eqb_neq key key') Hne) as Hneb.
  induction obj as [|[k w] rest IH]; simpl.
  - by rewrite Hneb.
  - destruct (String.eqb k key) eqn:Hk; simpl.
    + apply String.eqb_eq in Hk as ->. by rewrite Hneb.
    + by rewrite IH.
Qed.

Lemma setEnv_lookup key val context h obj :
  h !! context = Some obj →
  setEnv key val context h !! context = Some (setEnv_object key val obj).
Proof.
  intros Hc. unfold setEnv, setEnv_object, assign, deref. rewrite Hc. simpl.
  destruct (_ && _); [apply lookup_insert_eq|done].
Qed.

Lemma setEnv_lookup_ne key val context h l :
  l ≠ context → setEnv key val context h !! l = h !! l.
Proof.
  intros Hne. unfold setEnv, assign.
  destruct (_ && _); [|done]. by rewrite lookup_insert_ne.
Qed.

Lemma setEnv_dom key val context h :
  is_Some (h !! context) → dom (setEnv key val context h) = dom h.
Proof.
  intros Hc. unfold setEnv, assign. destruct (_ && _); [|done].
  rewrite dom_insert_L. apply (subseteq_union_1_L (C := gset positive)).
  by apply singleton_subseteq_l, elem_of_dom.
Qed.

Lemma get_setEnv_object_eq key val obj :
  get key (setEnv_object key val obj) =
  if is_undefined (get key obj) then val else get key obj.
Proof.
  unfold setEnv_object. destruct (is_undefined (get key obj)) eqn:Hu; simpl.
  - destruct val; simpl; try apply get_set_prop_eq.
    by destruct (get key obj).
  - done.
Qed.

Lemma get_setEnv_object_ne key key' val obj :
  key ≠ key' → get key' (setEnv_object key val obj) = get key' obj.
Proof.
  intros Hne. unfold setEnv_object.
  destruct (_ && _); [by apply get_set_prop_ne|done].
Qed.

Section Render.
Context {Path : NodePath} {utils : FractalUtils} {RegExp : RegExpEngine}
  {Twig : TwigEngine}.
Variable self : TwigAdapter.

Lemma render_setEnv_lookup context meta h obj :
  h !! context = Some obj →
  render_setEnv self context meta h !! context
    = Some (render_setEnv_object self meta obj).
Proof.
  intros Hc. unfold render_setEnv, render_setEnv_object.
  destruct (negb _); [|done]. cbv zeta.
  by do 4 apply setEnv_lookup.
Qed.

Lemma render_setEnv_lookup_ne context meta h l :
  l ≠ context → render_setEnv self context meta h !! l = h !! l.
Proof.
  intros Hne. unfold render_setEnv. destruct (negb _); [|done]. cbv zeta.
  by rewrite !setEnv_lookup_ne.
Qed.

Lemma render_setEnv_dom context meta h :
  is_Some (h !! context) → dom (render_setEnv self context meta h) = dom h.
Proof.
  intros [obj Hc]. unfold render_setEnv. destruct (negb _); [|done]. cbv zeta.
  rewrite !setEnv_dom; [done|..]; eexists;
    repeat first [exact Hc | apply setEnv_lookup].
Qed.

Lemma get_render_setEnv_object meta obj key val :
  (key, val) ∈ reserved self meta →
  pristine (config self) = false →
  get key (render_setEnv_object self meta obj) =
  if is_undefined (get key obj) then val else get key obj.
Proof.
  intros Hin Hp. unfold render_setEnv_object. rewrite Hp. simpl.
  unfold reserved in Hin.
  repeat (apply elem_of_cons in Hin as [[= -> ->]|Hin]);
    [..|by apply elem_of_nil in Hin];
    repeat first [ rewrite get_setEnv_object_eq
                 | rewrite get_setEnv_object_ne by done ]; done.
Qed.

Lemma get_render_setEnv_object_other meta obj key :
  key ∉ (reserved self meta).*1 →
  get key (render_setEnv_object self meta obj) = get key obj.
Proof.
  intros Hnot. unfold render_setEnv_object. destruct (negb _); [|done].
  simpl in Hnot. rewrite !get_setEnv_object_ne; [done|..];
    intros <-; apply Hnot; set_solver.
Qed.

(** C8: for each of [_self], [_target], [_env] and [_config], the prologue
    of [render] leaves a value the caller's context already has (one that
    is not [undefined]) as it is, and puts its own value there only when
    the context has none; in pristine mode it changes nothing. *)
Theorem render_injects_only_absent_keys context meta h obj key val :
  h !! context = Some obj →
  (key, val) ∈ reserved self meta →
  ∃ obj',
    render_setEnv self context meta h !! context = Some obj' ∧
    (get key obj ≠ VUndefined → get key obj' = get key obj) ∧
    (get key obj = VUndefined → pristine (config self) = false →
       get key obj' = val) ∧
    (pristine (config self) = true → obj' = obj).
Proof.
  intros Hc Hin. exists (render_setEnv_object self meta obj).
  split; [by apply render_setEnv_lookup|].
  destruct (pristine (config self)) eqn:Hp.
  - unfold render_setEnv_object. rewrite Hp. simpl. repeat split; done.
  - rewrite (get_render_setEnv_object meta obj key val Hin Hp).
    repeat split; try done.
    + intros Hdef. by destruct (get key obj).
    + by intros ->.
Qed.

(** C10: the prologue of [render] writes to the very object the caller
    passed: the reference is the same, no object is made, no other object
    changes, and a reserved key the context lacked now holds the value of
    [render]; that is the heap the promise starts from, so with an engine
    that leaves the object alone the caller finds the key there after
    [render] has returned. *)
Theorem render_mutates_caller_context path str context meta h obj key val :
  h !! context = Some obj →
  pristine (config self) = false →
  (key, val) ∈ reserved self (meta_or_empty meta) →
  get key obj = VUndefined →
  val ≠ VUndefined →
  let h' := render_setEnv self context (meta_or_empty meta) h in
  render self path str context meta h
    = promise path str context (meta_or_empty meta) h' ∧
  dom h' = dom h ∧
  (∀ l, l ≠ context → h' !! l = h !! l) ∧
  (∃ obj', h' !! context = Some obj' ∧ get key obj' = val) ∧
  ((∀ h0, (promise path str context (meta_or_empty meta) h0).1 !! context
          = h0 !! context) →
   ∃ obj', (render self path str context meta h).1 !! context = Some obj' ∧
           get key obj' = val).
Proof.
  intros Hc Hp Hin Habsent Hval h'.
  assert (∃ obj', h' !! context = Some obj' ∧ get key obj' = val) as Hset.
  { exists (render_setEnv_object self (meta_or_empty meta) obj).
    split; [by apply render_setEnv_lookup|].
    rewrite (get_render_setEnv_object _ obj key val Hin Hp).
    by rewrite Habsent. }
  repeat split; try done.
  - by apply render_setEnv_dom.
  - intros l Hl. by apply render_setEnv_lookup_ne.
  - intros Hframe. unfold render. by rewrite Hframe.
Qed.

End Render.

(** ** The registry and the prologue on the small library *)

Section RenderExamples.
#[local] Existing Instance Demo.Path.
#[local] Existing Instance Demo.utils.
#[local] Existing Instance Demo.RegExp.
#[local] Existing Instance Demo.Twig.

Lemma unCache_evicts_path_and_handle_witness :
  unCache (Demo.adapter false) (ChangedView Demo.button) Demo.registry
    !! "atoms/button/button.twig" = None ∧
  unCache (Demo.adapter false) (ChangedView Demo.button) Demo.registry
    !! "@button" = None ∧
  (Demo.registry !! "atoms/button/button.twig" = None →
   Demo.registry !! "@button" = None →
   unCache (Demo.adapter false) (ChangedView Demo.button) Demo.registry
     = Demo.registry) ∧
  unCache (Demo.adapter false) (ChangedView Demo.button)
    (unCache (Demo.adapter false) (ChangedView Demo.button) Demo.registry)
    = unCache (Demo.adapter false) (ChangedView Demo.button) Demo.registry.
Proof.
  apply (unCache_evicts_path_and_handle (Demo.adapter false) Demo.button
           "atoms/button/button.twig" "@button" Demo.registry);
    [reflexivity|reflexivity|discriminate].
Defined.

(** The other entry stays. *)
Example unCache_keeps_menu :
  unCache (Demo.adapter false) (ChangedView Demo.button) Demo.registry
    = {[ "@menu" := Demo.compiled Demo.menu ]}.
Proof. by vm_compute. Qed.

(** The page has a [_self] of its own and no [_target]. *)
Lemma render_injects_only_absent_keys_witness :
  ∃ obj',
    render_setEnv (Demo.adapter false) 1%positive Demo.meta Demo.pageHeap
      !! 1%positive = Some obj' ∧
    (get "_self" Demo.page ≠ VUndefined → get "_self" obj' = get "_self" Demo.page) ∧
    (get "_self" Demo.page = VUndefined →
     pristine (config (Demo.adapter false)) = false →
     get "_self" obj' = meta_self Demo.meta) ∧
    (pristine (config (Demo.adapter false)) = true → obj' = Demo.page).
Proof.
  apply (render_injects_only_absent_keys (Demo.adapter false) 1%positive
           Demo.meta Demo.pageHeap Demo.page "_self" (meta_self Demo.meta));
    [reflexivity|]. apply list_elem_of_here.
Defined.

Example render_setEnv_page :
  render_setEnv (Demo.adapter false) 1%positive Demo.meta Demo.pageHeap
  = {[ 1%positive :=
         [("title", VString "Home");
          ("_self", VObject [("handle", VString "home")]);
          ("_target", VString "preview");
          ("_config", VObject [("project", VString "demo")])] ]}.
Proof. by vm_compute. Qed.

Lemma render_mutates_caller_context_witness :
  let h' := render_setEnv (Demo.adapter false) 1%positive
              (meta_or_empty (Some Demo.meta)) Demo.pageHeap in
  render (Demo.adapter false) Demo.root "" 1%positive (Some Demo.meta) Demo.pageHeap
    = promise Demo.root "" 1%positive (meta_or_empty (Some Demo.meta)) h' ∧
  dom h' = dom Demo.pageHeap ∧
  (∀ l, l ≠ 1%positive → h' !! l = Demo.pageHeap !! l) ∧
  (∃ obj', h' !! 1%positive = Some obj' ∧ get "_target" obj' = VString "preview") ∧
  ((∀ h0, (promise Demo.root "" 1%positive (meta_or_empty (Some Demo.meta)) h0).1
            !! 1%positive = h0 !! 1%positive) →
   ∃ obj', (render (Demo.adapter false) Demo.root "" 1%positive (Some Demo.meta)
              Demo.pageHeap).1 !! 1%positive = Some obj' ∧
           get "_target" obj' = VString "preview").
Proof.
  apply (render_mutates_caller_context (Demo.adapter false) Demo.root ""
           1%positive (Some Demo.meta) Demo.pageHeap Demo.page
           "_target" (VString "preview"));
    [reflexivity|reflexivity| |reflexivity|discriminate].
  apply list_elem_of_further, list_elem_of_here.
Defined.

End RenderExamples.

(** ** [setKeys] *)

(** Induction on values that reaches into the properties of plain objects
    (arrays are never entered by [setKeys]). *)
Lemma value_object_ind (P : value → Prop) :
  (∀ val, (∀ props, val ≠ VObject props) → P val) →
  (∀ props, Forall (λ prop, P prop.2) props → P (VObject props)) →
  ∀ val, P val.
Proof.
  intros Hother Hobj.
  fix IH 1. intros [| | b | n | s | items | props | tag];
    try (apply Hother; intros props' Heq; discriminate Heq).
  apply Hobj. induction props as [|[key val] rest IHrest]; constructor.
  - apply IH.
  - apply IHrest.
Qed.

Lemma setKeys_if_plain_object obj :
  setKeys_if_plain (VObject obj) = (obj' ← setKeys obj; Return (VObject obj')).
Proof. reflexivity. Qed.

Lemma setKeys_if_plain_other val :
  (∀ props, val ≠ VObject props) → setKeys_if_plain val = Return val.
Proof. intros Hno. destruct val; try done. by destruct (Hno props). Qed.

Lemma each_Return recur obj obj' :
  each recur obj = Return obj' ↔ Forall2 (each_step recur) obj obj'.
Proof.
  revert obj'. induction obj as [|[key val] rest IH]; intros obj'; simpl.
  - split.
    + intros [= <-]. constructor.
    + intros Hall. by apply Forall2_nil_inv_l in Hall as ->.
  - split.
    + intros Hrun.
      destruct (if isPublicKey key then recur val else Return val)
        as [val'|] eqn:Hval; [|done]. simpl in Hrun.
      destruct (each recur rest) as [rest'|] eqn:Hrest; [|done].
      simpl in Hrun. injection Hrun as <-. constructor.
      * split; [done|]. simpl. destruct (isPublicKey key); [done|].
        by injection Hval as <-.
      * by apply IH.
    + intros Hall.
      apply Forall2_cons_inv_l in Hall as ([key' val'] & rest' & [Hk Hv] & Hall & ->).
      simpl in Hk, Hv. subst key'. apply IH in Hall. rewrite Hall.
      destruct (isPublicKey key); [rewrite Hv|subst val']; done.
Qed.

Lemma set_prop_set_prop key v w obj :
  set_prop key v (set_prop key w obj) = set_prop key v obj.
Proof.
  induction obj as [|[k x] rest IH]; simpl.
  - by rewrite String.eqb_refl.
  - destruct (String.eqb k key) eqn:Hk; simpl; rewrite Hk; [done|].
    by rewrite IH.
Qed.

Lemma filter_keys_set_prop (keep : string → bool) key v obj :
  keep key = false →
  List.filter keep (set_prop key v obj).*1 = List.filter keep obj.*1.
Proof.
  intros Hkeep. induction obj as [|[k x] rest IH]; cbn [set_prop].
  - simpl. by rewrite Hkeep.
  - destruct (String.eqb k key); [done|].
    rewrite !fmap_cons. cbn [List.filter]. by rewrite IH.
Qed.

Lemma publicKeys_set_prop_keys v obj :
  publicKeys (set_prop "_keys" v obj) = publicKeys obj.
Proof. unfold publicKeys. by rewrite filter_keys_set_prop. Qed.

Lemma arrayLikeLength_set_prop_keys v obj :
  arrayLikeLength (set_prop "_keys" v obj) = arrayLikeLength obj.
Proof. unfold arrayLikeLength. by rewrite get_set_prop_ne. Qed.

(** A key that is not public can be assigned before or after [each]. *)
Lemma each_set_prop recur key v obj :
  isPublicKey key = false →
  each recur (set_prop key v obj) =
  (obj' ← each recur obj; Return (set_prop key v obj')).
Proof.
  intros Hkey. induction obj as [|[k x] rest IH]; simpl.
  - by rewrite Hkey.
  - destruct (String.eqb k key) eqn:Hk; simpl.
    + apply String.eqb_eq in Hk as ->. rewrite Hkey. simpl.
      destruct (each recur rest); simpl; [|done]. by rewrite String.eqb_refl.
    + rewrite IH.
      destruct (if isPublicKey k then recur x else Return x); simpl; [|done].
      destruct (each recur rest); simpl; [|done]. by rewrite Hk.
Qed.

(** [setKeys] in the order of the source: assign [_keys], then run
    [_.each] over the object, [_keys] included. *)
Lemma setKeys_source_order obj :
  setKeys obj =
  match arrayLikeLength obj with
  | Some n =>
      if (MAX_ARRAY_LENGTH <? n)%Z then Throw RangeError
      else Return (set_prop "_keys" (VArray []) obj)
  | None =>
      each setKeys_if_plain (set_prop "_keys" (VArray (publicKeys obj)) obj)
  end.
Proof.
  unfold setKeys, setKeys_body. destruct (arrayLikeLength obj); [done|].
  by rewrite each_set_prop.
Qed.

Lemma each_keys recur obj obj' :
  Forall2 (each_step recur) obj obj' → obj'.*1 = obj.*1.
Proof.
  induction 1 as [|prop prop' rest rest' [Hk _] _ IH]; [done|].
  rewrite !fmap_cons. by rewrite Hk, IH.
Qed.

Lemma each_get_private recur obj obj' key :
  Forall2 (each_step recur) obj obj' →
  isPublicKey key = false → get key obj' = get key obj.
Proof.
  intros Hall Hkey.
  induction Hall as [|[k v] [k' v'] rest rest' [Hk Hv] _ IH]; simpl; [done|].
  simpl in Hk, Hv. subst k'. destruct (String.eqb k key) eqn:Hkk; [|done].
  apply String.eqb_eq in Hkk as ->. by rewrite Hkey in Hv.
Qed.

Lemma setKeys_if_plain_same_kind val val' :
  setKeys_if_plain val = Return val' → same_kind val val'.
Proof.
  destruct val; simpl; try by intros [= <-].
  destruct (setKeys_body setKeys_if_plain props) as [obj'|]; simpl; [|done].
  intros [= <-]. by eexists.
Qed.

Lemma same_kind_refl val : same_kind val val.
Proof. destruct val; simpl; eauto. Qed.

Lemma each_get_same_kind obj obj' key :
  Forall2 (each_step setKeys_if_plain) obj obj' →
  same_kind (get key obj) (get key obj').
Proof.
  induction 1 as [|[k v] [k' v'] rest rest' [Hk Hv] _ IH]; simpl; [done|].
  simpl in Hk, Hv. subst k'. destruct (String.eqb k key); [|done].
  destruct (isPublicKey k).
  - by apply setKeys_if_plain_same_kind.
  - subst v'. apply same_kind_refl.
Qed.

Lemma each_arrayLikeLength obj obj' :
  Forall2 (each_step setKeys_if_plain) obj obj' →
  arrayLikeLength obj' = arrayLikeLength obj.
Proof.
  intros Hall. unfold arrayLikeLength.
  pose proof (each_get_same_kind obj obj' "length" Hall) as Hkind.
  destruct (get "length" obj); simpl in Hkind; try by rewrite Hkind.
  by destruct Hkind as [obj'' ->].
Qed.

(** What a call of [setKeys] that returns has done. *)
Lemma setKeys_Return obj obj1 :
  setKeys obj = Return obj1 →
  match arrayLikeLength obj with
  | Some n =>
      (n ≤ MAX_ARRAY_LENGTH)%Z ∧ obj1 = set_prop "_keys" (VArray []) obj
  | None =>
      ∃ obj', Forall2 (each_step setKeys_if_plain) obj obj' ∧
              obj1 = set_prop "_keys" (VArray (publicKeys obj)) obj'
  end.
Proof.
  unfold setKeys, setKeys_body. destruct (arrayLikeLength obj) as [n|].
  - destruct (Z.ltb_spec MAX_ARRAY_LENGTH n); [done|].
    intros [= <-]. split; [lia|done].
  - destruct (each setKeys_if_plain obj) as [obj'|e] eqn:Heach; simpl; [|done].
    intros [= <-]. exists obj'. split; [by apply each_Return|done].
Qed.

Lemma visited_object obj :
  visited (VObject obj) =
  [] :: match arrayLikeLength obj with
        | Some _ => []
        | None => visited_nested visited obj
        end.
Proof. reflexivity. Qed.

Lemma visited_nested_cons recur key val rest :
  visited_nested recur ((key, val) :: rest) =
  (if isPublicKey key then cons key <$> recur val else [])
  ++ visited_nested recur rest.
Proof. reflexivity. Qed.

Lemma visited_nested_set_prop recur key v obj :
  isPublicKey key = false →
  visited_nested recur (set_prop key v obj) = visited_nested recur obj.
Proof.
  intros Hkey. induction obj as [|[k x] rest IH]; cbn [set_prop].
  - rewrite visited_nested_cons. by rewrite Hkey.
  - destruct (String.eqb k key) eqn:Hk.
    + apply String.eqb_eq in Hk as ->.
      rewrite !visited_nested_cons. by rewrite Hkey.
    + rewrite !visited_nested_cons. by rewrite IH.
Qed.

(** A second pass of [each] over what the first pass left finds every
    nested object already done, and calls [setKeys] on the same ones. *)
Lemma each_again obj obj' :
  Forall (λ prop, ∀ val1, setKeys_if_plain prop.2 = Return val1 →
            setKeys_if_plain val1 = Return val1 ∧
            visited val1 = visited prop.2) obj →
  Forall2 (each_step setKeys_if_plain) obj obj' →
  Forall2 (each_step setKeys_if_plain) obj' obj' ∧
  visited_nested visited obj' = visited_nested visited obj.
Proof.
  intros IH Hall.
  induction Hall as [|[k v] [k' v'] rest rest' [Hk Hv] _ IHall].
  - split; [constructor|done].
  - apply Forall_cons in IH as [IHv IHrest].
    destruct (IHall IHrest) as [Hagain Hvisited].
    simpl in Hk, Hv, IHv. subst k'. split.
    + constructor; [|done]. split; [done|]. simpl.
      destruct (isPublicKey k); [|done]. by apply IHv.
    + rewrite !visited_nested_cons, Hvisited.
      destruct (isPublicKey k); [|done].
      by destruct (IHv v' Hv) as [_ ->].
Qed.

Lemma setKeys_if_plain_again val val1 :
  setKeys_if_plain val = Return val1 →
  setKeys_if_plain val1 = Return val1 ∧ visited val1 = visited val.
Proof.
  revert val1. induction val as [val Hother|obj IH] using value_object_ind;
    intros val1 Hrun.
  - rewrite setKeys_if_plain_other in Hrun by done.
    injection Hrun as <-. by rewrite setKeys_if_plain_other.
  - rewrite setKeys_if_plain_object in Hrun.
    destruct (setKeys obj) as [obj1|] eqn:Hset; [|done].
    injection Hrun as <-. apply setKeys_Return in Hset.
    rewrite setKeys_if_plain_object, !visited_object.
    unfold setKeys, setKeys_body.
    destruct (arrayLikeLength obj) as [n|] eqn:Hlen.
    + destruct Hset as [Hn ->].
      rewrite arrayLikeLength_set_prop_keys, Hlen, set_prop_set_prop.
      destruct (Z.ltb_spec MAX_ARRAY_LENGTH n); [lia|done].
    + destruct Hset as (obj' & Hall & ->).
      destruct (each_again obj obj' IH Hall) as [Hagain Hvisited].
      rewrite arrayLikeLength_set_prop_keys, (each_arrayLikeLength _ _ Hall), Hlen.
      rewrite each_set_prop by done.
      apply each_Return in Hagain. rewrite Hagain. simpl.
      rewrite publicKeys_set_prop_keys, set_prop_set_prop.
      rewrite visited_nested_set_prop, Hvisited by done.
      unfold publicKeys. by rewrite (each_keys _ _ _ Hall).
Qed.

(** The keys that lead to an object [setKeys] is called on are public. *)
Lemma visited_public val path :
  path ∈ visited val → Forall (λ key, startsWith key "_" = false) path.
Proof.
  revert path. induction val as [val Hother|obj IH] using value_object_ind;
    intros path Hin.
  - destruct val; try by apply elem_of_nil in Hin. by destruct (Hother props).
  - rewrite visited_object in Hin.
    apply elem_of_cons in Hin as [->|Hin]; [constructor|].
    destruct (arrayLikeLength obj); [by apply elem_of_nil in Hin|].
    induction obj as [|[key val] rest IHrest]; [by apply elem_of_nil in Hin|].
    apply Forall_cons in IH as [IHval IH].
    rewrite visited_nested_cons in Hin. apply elem_of_app in Hin as [Hin|Hin].
    + destruct (isPublicKey key) eqn:Hkey; [|by apply elem_of_nil in Hin].
      apply list_elem_of_fmap in Hin as (tail & -> & Htail).
      constructor; [|by apply IHval].
      unfold isPublicKey in Hkey. by destruct (startsWith key "_").
    + by apply IHrest.
Qed.

Lemma publicKeys_public obj :
  ∃ keys, publicKeys obj = VString <$> keys ∧
          Forall (λ key, startsWith key "_" = false ∧ key ∈ obj.*1) keys.
Proof.
  eexists. split; [reflexivity|].
  apply Forall_forall. intros key Hin.
  apply list_elem_of_In, filter_In in Hin as [Hin Hkey].
  apply andb_prop in Hkey as [Hkey _]. unfold isPublicKey in Hkey.
  split; [by destruct (startsWith key "_")|by apply list_elem_of_In].
Qed.

(** [setKeys] leaves what is under a private key other than [_keys]. *)
Lemma setKeys_get_private obj obj1 key :
  setKeys obj = Return obj1 →
  startsWith key "_" = true → key ≠ "_keys" →
  get key obj1 = get key obj.
Proof.
  intros Hset Hprivate Hne. apply setKeys_Return in Hset.
  assert (isPublicKey key = false) as Hkey.
  { unfold isPublicKey. by rewrite Hprivate. }
  destruct (arrayLikeLength obj).
  - destruct Hset as [_ ->]. by rewrite get_set_prop_ne.
  - destruct Hset as (obj' & Hall & ->). rewrite get_set_prop_ne by done.
    by eapply each_get_private.
Qed.

(** C4: a call of [setKeys] that returns leaves an object on which a
    second call changes nothing (so [_keys] comes out the same, in the same
    order) and is made on the same nested objects; the [_keys] it computes
    holds own keys of the object none of which begins with an underscore;
    the values under keys that begin with an underscore are as they were;
    and no object is reached through such a key. *)
Theorem setKeys_idempotent_skips_private obj obj1 :
  setKeys obj = Return obj1 →
  setKeys obj1 = Return obj1 ∧
  visited (VObject obj1) = visited (VObject obj) ∧
  (∃ keys, get "_keys" obj1 = VArray (VString <$> keys) ∧
           Forall (λ key, startsWith key "_" = false ∧ key ∈ obj.*1) keys) ∧
  (∀ key, startsWith key "_" = true → key ≠ "_keys" →
          get key obj1 = get key obj) ∧
  (∀ path, path ∈ visited (VObject obj) →
           Forall (λ key, startsWith key "_" = false) path).
Proof.
  intros Hset.
  assert (setKeys_if_plain (VObject obj) = Return (VObject obj1)) as Hrun.
  { by rewrite setKeys_if_plain_object, Hset. }
  apply setKeys_if_plain_again in Hrun as [Hagain Hvisited].
  rewrite setKeys_if_plain_object in Hagain.
  split; [by destruct (setKeys obj1); simplify_eq/=|].
  split; [done|].
  split; [|split; [intros key; by apply setKeys_get_private|apply visited_public]].
  apply setKeys_Return in Hset. destruct (arrayLikeLength obj).
  - destruct Hset as [_ ->]. exists []. by rewrite get_set_prop_eq.
  - destruct Hset as (obj' & _ & ->). rewrite get_set_prop_eq.
    destruct (publicKeys_public obj) as (keys & -> & Hkeys). by exists keys.
Qed.

(** [setKeys] returns, unless some object it reaches is array-like with a
    [length] beyond what an array can hold; then it throws a [RangeError]. *)
Lemma allocatable_object obj :
  allocatable (VObject obj) =
  match arrayLikeLength obj with
  | Some n => (n <=? MAX_ARRAY_LENGTH)%Z
  | None =>
      forallb (λ '(key, val), if isPublicKey key then allocatable val else true)
        obj
  end.
Proof. reflexivity. Qed.

Lemma setKeys_if_plain_outcome val :
  if allocatable val then ∃ val1, setKeys_if_plain val = Return val1
  else setKeys_if_plain val = Throw RangeError.
Proof.
  induction val as [val Hother|obj IH] using value_object_ind.
  - rewrite setKeys_if_plain_other by done.
    destruct val; try by eexists. by destruct (Hother props).
  - rewrite allocatable_object, setKeys_if_plain_object.
    unfold setKeys, setKeys_body. destruct (arrayLikeLength obj) as [n|].
    + destruct (Z.leb_spec n MAX_ARRAY_LENGTH), (Z.ltb_spec MAX_ARRAY_LENGTH n);
        try lia; [by eexists|done].
    + assert (if forallb (λ '(key, val),
                   if isPublicKey key then allocatable val else true) obj
              then ∃ obj', each setKeys_if_plain obj = Return obj'
              else each setKeys_if_plain obj = Throw RangeError) as Heach.
      { induction obj as [|[key val] rest IHrest]; [by eexists|].
        apply Forall_cons in IH as [IHval IH]. specialize (IHrest IH).
        cbn [forallb each]. simpl in IHval.
        destruct (isPublicKey key); simpl.
        - destruct (allocatable val); simpl.
          + destruct IHval as [val1 ->]. simpl.
            destruct (forallb _ rest); [|by rewrite IHrest].
            destruct IHrest as [rest' ->]. by eexists.
          + by rewrite IHval.
        - destruct (forallb _ rest); [|by rewrite IHrest].
          destruct IHrest as [rest' ->]. by eexists. }
      destruct (forallb _ obj); [|by rewrite Heach].
      destruct Heach as [obj' ->]. by eexists.
Qed.

Lemma setKeys_returns obj :
  allocatable (VObject obj) = true → ∃ obj1, setKeys obj = Return obj1.
Proof.
  intros Hok. pose proof (setKeys_if_plain_outcome (VObject obj)) as Hout.
  rewrite Hok, setKeys_if_plain_object in Hout.
  destruct Hout as [val1 Hrun].
  destruct (setKeys obj) as [obj1|]; [by eexists|done].
Qed.

Lemma setKeys_throws obj e :
  setKeys obj = Throw e → e = RangeError ∧ allocatable (VObject obj) = false.
Proof.
  intros Hthrow. pose proof (setKeys_if_plain_outcome (VObject obj)) as Hout.
  rewrite setKeys_if_plain_object, Hthrow in Hout.
  destruct (allocatable (VObject obj)).
  - destruct Hout as [val1 Hout]. discriminate Hout.
  - by injection Hout as ->.
Qed.

(** ** [setKeys] on a nested context *)

Example setKeys_nested :
  setKeys Demo.nested = Return
    [("title", VString "Home");
     ("_self", VObject [("handle", VString "home")]);
     ("hero", VObject [("image", VObject [("src", VString "hero.png");
                                          ("_keys", VArray [VString "src"])]);
                       ("_cache", VObject [("hit", VBool true)]);
                       ("_keys", VArray [VString "image"])]);
     ("", VObject [("anonymous", VNull); ("_keys", VArray [VString "anonymous"])]);
     ("tags", VArray [VString "a"; VObject [("inArray", VNull)]]);
     ("list", VObject [("length", VNumber 2); ("first", VObject []);
                       ("_keys", VArray [])]);
     ("_keys", VArray [VString "title"; VString "hero"; VString "tags";
                       VString "list"])].
Proof. reflexivity. Qed.

Example visited_nested_context :
  visited (VObject Demo.nested) = [[]; ["hero"]; ["hero"; "image"]; [""]; ["list"]].
Proof. reflexivity. Qed.

Lemma setKeys_idempotent_skips_private_witness :
  ∃ obj1,
    setKeys Demo.nested = Return obj1 ∧
    setKeys obj1 = Return obj1 ∧
    visited (VObject obj1) = visited (VObject Demo.nested) ∧
    (∃ keys, get "_keys" obj1 = VArray (VString <$> keys) ∧
             Forall (λ key, startsWith key "_" = false ∧ key ∈ Demo.nested.*1) keys) ∧
    (∀ key, startsWith key "_" = true → key ≠ "_keys" →
            get key obj1 = get key Demo.nested) ∧
    (∀ path, path ∈ visited (VObject Demo.nested) →
             Forall (λ key, startsWith key "_" = false) path).
Proof.
  eexists. split; [reflexivity|].
  apply (setKeys_idempotent_skips_private Demo.nested). reflexivity.
Defined.

Lemma set_prop_keys key v obj :
  (set_prop key v obj).*1 =
  if bool_decide (key ∈ obj.*1) then obj.*1 else obj.*1 ++ [key].
Proof.
  induction obj as [|[k w] rest IH]; cbn [set_prop]; [done|].
  rewrite !fmap_cons. cbn [fst].
  destruct (String.eqb_spec k key) as [->|Hne].
  - rewrite bool_decide_eq_true_2; [done|]. apply list_elem_of_here.
  - rewrite fmap_cons, IH. cbn [fst]. case_bool_decide as Hin.
    + rewrite bool_decide_eq_true_2; [done|]. by apply list_elem_of_further.
    + rewrite bool_decide_eq_false_2; [done|].
      intros [?|?]%elem_of_cons; [by subst|done].
Qed.


(** ** The store *)


Lemma get_cell_set_cell_ne key key' c obj :
  key ≠ key' → get_cell key' (set_cell key c obj) = get_cell key' obj.
Proof.
  intros Hne. pose proof (proj2 (String.eqb_neq key key') Hne) as Hneb.
  induction obj as [|[k d] rest IH]; simpl.
  - by rewrite Hneb.
  - destruct (String.eqb k key) eqn:Hk; simpl.
    + apply String.eqb_eq in Hk as ->. by rewrite Hneb.
    + by rewrite IH.
Qed.

(** A reference that is read is held. *)
Lemma get_cell_Ref key obj l : get_cell key obj = Ref l → (key, Ref l) ∈ obj.
Proof.
  induction obj as [|[k d] rest IH]; simpl; [done|].
  destruct (String.eqb_spec k key) as [->|_].
  - intros ->. apply list_elem_of_here.
  - intros Hget. by apply list_elem_of_further, IH.
Qed.

(** An assignment brings in no reference but the one assigned. *)
Lemma set_cell_refs key c obj k l :
  (k, Ref l) ∈ set_cell key c obj → (k, Ref l) ∈ obj ∨ c = Ref l.
Proof.
  induction obj as [|[k' d] rest IH]; simpl.
  - intros [[= _ <-]|[]%elem_of_nil]%elem_of_cons. by right.
  - destruct (String.eqb k' key).
    + intros [[= _ <-]|Hin]%elem_of_cons; [by right|].
      left. by apply list_elem_of_further.
    + intros [[= <- <-]|Hin]%elem_of_cons; [left; apply list_elem_of_here|].
      destruct (IH Hin) as [?|?]; [left; by apply list_elem_of_further|by right].
Qed.

Lemma alloc_fresh obj (h : store) : (alloc obj h).2 ∉ dom h.
Proof. apply is_fresh. Qed.

Lemma alloc_store obj (h : store) :
  (alloc obj h).1 = <[(alloc obj h).2 := obj]> h.
Proof. reflexivity. Qed.

Lemma write_lookup l key c (h : store) :
  write l key c h !! l = set_cell key c <$> h !! l.
Proof. apply lookup_alter_eq. Qed.

Lemma write_lookup_ne l l' key c (h : store) :
  l ≠ l' → write l key c h !! l' = h !! l'.
Proof. intros Hne. by apply lookup_alter_ne. Qed.

Lemma write_dom l key c (h : store) : dom (write l key c h) = dom h.
Proof. apply dom_alter_L. Qed.

Lemma object_at_lookup (h : store) l obj : h !! l = Some obj → object_at h l = obj.
Proof. unfold object_at. by intros ->. Qed.

(** A reference read off an object of a closed set leads into the set. *)
Lemma closed_get_cell h S l key nested :
  closed h S → l ∈ S → get_cell key (object_at h l) = Ref nested → nested ∈ S.
Proof.
  intros [Hdom Hrefs] Hl Hget.
  pose proof (Hdom _ Hl) as Hobj. apply elem_of_dom in Hobj as [obj Hobj].
  rewrite (object_at_lookup _ _ _ Hobj) in Hget.
  apply (Hrefs l obj key nested Hl Hobj). by apply get_cell_Ref.
Qed.

Lemma closed_union h S T : closed h S → closed h T → closed h (S ∪ T).
Proof.
  intros [HS HSrefs] [HT HTrefs]. split; [by apply union_subseteq|].
  intros l obj key c [Hl|Hl]%elem_of_union Hobj Hin; apply elem_of_union;
    [left|right]; eauto.
Qed.

(** A store that only grows leaves a closed set closed. *)
Lemma closed_subseteq (h h' : store) S : h ⊆ h' → closed h S → closed h' S.
Proof.
  intros Hsub [Hdom Hrefs]. split.
  - intros l Hl. apply Hdom, elem_of_dom in Hl as [obj Hobj].
    apply elem_of_dom. exists obj. by eapply lookup_weaken.
  - intros l obj key c Hl Hobj Hin.
    pose proof (Hdom _ Hl) as Hold. apply elem_of_dom in Hold as [obj' Hobj'].
    pose proof (lookup_weaken _ _ _ _ Hobj' Hsub) as Hobj''.
    rewrite Hobj in Hobj''. injection Hobj'' as <-. eauto.
Qed.

Lemma closedb_closed h S : closedb h S = true → closed h S.
Proof.
  unfold closedb. rewrite forallb_forall. intros Hall. split.
  - intros l Hl. specialize (Hall l). rewrite <- list_elem_of_In in Hall.
    specialize (Hall (proj2 (elem_of_elements S l) Hl)).
    apply elem_of_dom. destruct (h !! l); [by eexists|done].
  - intros l obj key c Hl Hobj Hin. specialize (Hall l).
    rewrite <- list_elem_of_In in Hall.
    specialize (Hall (proj2 (elem_of_elements S l) Hl)).
    rewrite Hobj, forallb_forall in Hall.
    apply list_elem_of_In, Hall in Hin. by apply bool_decide_eq_true in Hin.
Qed.

(** Writing data into an object of a closed set leaves the set closed. *)
Lemma closed_write h S l key c :
  closed h S → (∀ nested, c = Ref nested → nested ∈ S) →
  closed (write l key c h) S.
Proof.
  intros [Hdom Hrefs] Hc. split; [by rewrite write_dom|].
  intros l' obj k nested Hl' Hobj Hin.
  destruct (decide (l = l')) as [<-|Hne].
  - rewrite write_lookup in Hobj.
    destruct (h !! l) as [old|] eqn:Hold; [|done].
    injection Hobj as <-. apply set_cell_refs in Hin as [Hin|Hin]; eauto.
  - rewrite write_lookup_ne in Hobj by done. eauto.
Qed.

(** ** [setKeys], in place: what it leaves *)

Lemma kept_refl obj : kept obj obj.
Proof. by split. Qed.

Lemma kept_trans obj1 obj2 obj3 : kept obj1 obj2 → kept obj2 obj3 → kept obj1 obj3.
Proof.
  intros [Hrefs1 Hget1] [Hrefs2 Hget2]. split.
  - eauto.
  - intros key Hprivate Hne. by rewrite Hget2, Hget1.
Qed.

Lemma kept_set_cell key v obj :
  isPublicKey key = true ∨ key = "_keys" → kept obj (set_cell key (Data v) obj).
Proof.
  intros Hkey. split.
  - intros k c Hin. by apply set_cell_refs in Hin as [Hin|Hin].
  - intros k Hprivate Hne. apply get_cell_set_cell_ne.
    intros ->. destruct Hkey as [Hkey|Hkey]; congruence.
Qed.

Lemma kept_store_refl h : kept_store h h.
Proof.
  split; [done|]. intros l obj obj' Hobj Hobj'.
  rewrite Hobj in Hobj'. injection Hobj' as <-. apply kept_refl.
Qed.

Lemma kept_store_trans h1 h2 h3 :
  kept_store h1 h2 → kept_store h2 h3 → kept_store h1 h3.
Proof.
  intros [Hdom1 Hkept1] [Hdom2 Hkept2]. split; [congruence|].
  intros l obj1 obj3 Hobj1 Hobj3.
  assert (is_Some (h2 !! l)) as [obj2 Hobj2].
  { apply elem_of_dom. rewrite Hdom1. apply elem_of_dom. by eexists. }
  eapply kept_trans; eauto.
Qed.

Lemma kept_store_write l key v h :
  isPublicKey key = true ∨ key = "_keys" →
  kept_store h (write l key (Data v) h).
Proof.
  intros Hkey. split; [apply write_dom|].
  intros l' obj obj' Hobj Hobj'. destruct (decide (l = l')) as [<-|Hne].
  - rewrite write_lookup, Hobj in Hobj'. injection Hobj' as <-.
    by apply kept_set_cell.
  - rewrite write_lookup_ne, Hobj in Hobj' by done. injection Hobj' as <-.
    apply kept_refl.
Qed.

Lemma kept_store_closed h h' S : kept_store h h' → closed h S → closed h' S.
Proof.
  intros [Hdom Hkept] [HS Hrefs]. split; [by rewrite Hdom|].
  intros l obj' key c Hl Hobj' Hin.
  pose proof (HS _ Hl) as Hobj. apply elem_of_dom in Hobj as [obj Hobj].
  destruct (Hkept l obj obj' Hobj Hobj') as [Hsame _]. eauto.
Qed.

Lemma each_at_kept recur l keys h :
  (∀ nested h, kept_store h (recur nested h).1) →
  kept_store h (each_at recur l keys h).1.
Proof.
  intros Hrecur. revert h.
  induction keys as [|key rest IH]; intros h; cbn [each_at];
    [apply kept_store_refl|].
  destruct (isPublicKey key) eqn:Hkey; [|apply IH].
  destruct (get_cell key (object_at h l)) as [val|nested].
  - destruct (setKeys_if_plain val) as [val'|e]; [|apply kept_store_refl].
    eapply kept_store_trans; [|apply IH]. apply kept_store_write. by left.
  - pose proof (Hrecur nested h) as Hstep.
    destruct (recur nested h) as [h1 [[]|e]]; [|done].
    eapply kept_store_trans; [exact Hstep|apply IH].
Qed.

Lemma setKeys_fuel_kept fuel l h : kept_store h (setKeys_fuel fuel l h).1.
Proof.
  revert l h. induction fuel as [|fuel IH]; intros l h; cbn [setKeys_fuel];
    [apply kept_store_refl|].
  destruct (arrayLikeLength_at (object_at h l)) as [n|].
  - destruct (MAX_ARRAY_LENGTH <? n)%Z; [apply kept_store_refl|].
    apply kept_store_write. by right.
  - eapply kept_store_trans; [apply kept_store_write; by right|].
    by apply each_at_kept.
Qed.

(** [setKeys] writes to nothing outside a closed set that holds the object
    it is called on. *)
Lemma each_at_frame recur S l keys h l' :
  (∀ nested h, kept_store h (recur nested h).1) →
  (∀ nested h, closed h S → nested ∈ S → (recur nested h).1 !! l' = h !! l') →
  closed h S → l ∈ S → l' ∉ S →
  (each_at recur l keys h).1 !! l' = h !! l'.
Proof.
  intros Hkept Hrecur. revert h.
  induction keys as [|key rest IH]; intros h Hclosed Hl Hl'; cbn [each_at];
    [done|].
  destruct (isPublicKey key) eqn:Hkey; [|by apply IH].
  destruct (get_cell key (object_at h l)) as [val|nested] eqn:Hget.
  - destruct (setKeys_if_plain val) as [val'|e]; [|done].
    rewrite IH; [|by apply closed_write|done..].
    apply write_lookup_ne. by intros ->.
  - pose proof (closed_get_cell _ _ _ _ _ Hclosed Hl Hget) as Hnested.
    pose proof (Hrecur nested h Hclosed Hnested) as Hstep.
    pose proof (Hkept nested h) as Hkept1.
    destruct (recur nested h) as [h1 [[]|e]]; [|done].
    simpl in Hstep, Hkept1. rewrite IH; [done| |done..].
    by eapply kept_store_closed.
Qed.

Lemma setKeys_fuel_frame fuel S l h l' :
  closed h S → l ∈ S → l' ∉ S → (setKeys_fuel fuel l h).1 !! l' = h !! l'.
Proof.
  revert l h. induction fuel as [|fuel IH]; intros l h Hclosed Hl Hl';
    cbn [setKeys_fuel]; [done|].
  destruct (arrayLikeLength_at (object_at h l)) as [n|].
  - destruct (MAX_ARRAY_LENGTH <? n)%Z; [done|].
    apply write_lookup_ne. by intros ->.
  - rewrite each_at_frame with (S := S); try done.
    + apply write_lookup_ne. by intros ->.
    + intros nested h'. apply setKeys_fuel_kept.
    + intros nested h' Hclosed' Hnested. by apply IH.
    + by apply closed_write.
Qed.





(** ** [setKeys] in place, on a context that holds data only *)

Lemma data_fields_keys obj : (data_fields obj).*1 = obj.*1.
Proof.
  unfold data_fields. induction obj as [|[k v] rest IH]; [done|].
  csimpl. by rewrite IH.
Qed.

Lemma get_cell_data key obj : get_cell key (data_fields obj) = Data (get key obj).
Proof.
  unfold data_fields. induction obj as [|[k v] rest IH]; [done|].
  csimpl. by destruct (String.eqb k key).
Qed.

Lemma set_cell_data key v obj :
  set_cell key (Data v) (data_fields obj) = data_fields (set_prop key v obj).
Proof.
  unfold data_fields. induction obj as [|[k w] rest IH]; [done|].
  csimpl. destruct (String.eqb k key); [done|]. csimpl. by rewrite IH.
Qed.

Lemma write_data l key v obj (h : store) :
  write l key (Data v) (<[l := data_fields obj]> h)
  = <[l := data_fields (set_prop key v obj)]> h.
Proof. unfold write. by rewrite alter_insert_eq, set_cell_data. Qed.

Lemma write_data_lookup l key v obj (h : store) :
  h !! l = Some (data_fields obj) →
  write l key (Data v) h = <[l := data_fields (set_prop key v obj)]> h.
Proof.
  intros Hobj. rewrite <- write_data, insert_id; done.
Qed.

Lemma object_at_insert l obj (h : store) : object_at (<[l := obj]> h) l = obj.
Proof. unfold object_at. by rewrite lookup_insert_eq. Qed.

(** Where the keys differ, a property that is there is assigned in place. *)
Lemma get_app_fresh key v pre post :
  key ∉ pre.*1 → get key (pre ++ (key, v) :: post) = v.
Proof.
  induction pre as [|[k w] rest IH]; cbn [app get].
  - by rewrite String.eqb_refl.
  - rewrite fmap_cons. cbn [fst]. intros Hnotin.
    destruct (String.eqb_spec k key) as [->|_].
    + destruct Hnotin. apply list_elem_of_here.
    + apply IH. intros Hin. apply Hnotin. by apply list_elem_of_further.
Qed.

Lemma set_prop_app_fresh key v w pre post :
  key ∉ pre.*1 →
  set_prop key w (pre ++ (key, v) :: post) = pre ++ (key, w) :: post.
Proof.
  induction pre as [|[k x] rest IH]; cbn [app set_prop].
  - by rewrite String.eqb_refl.
  - rewrite fmap_cons. cbn [fst]. intros Hnotin.
    destruct (String.eqb_spec k key) as [->|_].
    + destruct Hnotin. apply list_elem_of_here.
    + rewrite IH; [done|]. intros Hin. apply Hnotin.
      by apply list_elem_of_further.
Qed.

(** [_.each] on an object of the store that holds data only is [each] on
    the data. *)
Lemma each_at_data recur l (h : store) pre post :
  NoDup (pre ++ post).*1 →
  match each setKeys_if_plain post with
  | Return post' =>
      each_at recur l post.*1 (<[l := data_fields (pre ++ post)]> h)
      = (<[l := data_fields (pre ++ post')]> h, Return ())
  | Throw e =>
      (each_at recur l post.*1 (<[l := data_fields (pre ++ post)]> h)).2
      = Throw e
  end.
Proof.
  revert pre. induction post as [|[key val] rest IH]; intros pre Hnodup;
    [done|].
  assert (key ∉ pre.*1) as Hfresh.
  { rewrite fmap_app, fmap_cons in Hnodup. cbn [fst] in Hnodup.
    apply NoDup_app in Hnodup as (_ & Hapart & _).
    intros Hin. apply (Hapart key Hin). apply list_elem_of_here. }
  assert (∀ val', NoDup ((pre ++ [(key, val')]) ++ rest).*1) as Hnodup'.
  { intros val'. rewrite <- (assoc_L (++)). simpl.
    by rewrite fmap_app, fmap_cons in *. }
  rewrite fmap_cons. cbn [fst each each_at].
  destruct (isPublicKey key) eqn:Hkey.
  - rewrite object_at_insert, get_cell_data, get_app_fresh by done.
    destruct (setKeys_if_plain val) as [val'|e]; simpl; [|done].
    rewrite write_data, set_prop_app_fresh by done.
    specialize (IH (pre ++ [(key, val')]) (Hnodup' val')).
    rewrite <- !(assoc_L (++)) in IH. simpl in IH.
    destruct (each setKeys_if_plain rest) as [rest'|e]; simpl; [|done].
    by rewrite <- !(assoc_L (++)) in IH.
  - simpl. specialize (IH (pre ++ [(key, val)]) (Hnodup' val)).
    rewrite <- !(assoc_L (++)) in IH. simpl in IH.
    destruct (each setKeys_if_plain rest) as [rest'|e]; simpl; [|done].
    by rewrite <- !(assoc_L (++)) in IH.
Qed.

Lemma NoDup_set_prop_keys key v obj : NoDup obj.*1 → NoDup (set_prop key v obj).*1.
Proof.
  intros Hnodup. rewrite set_prop_keys. case_bool_decide as Hin; [done|].
  apply NoDup_app. split; [done|]. split; [|apply NoDup_singleton].
  intros k Hk Hk'. by apply list_elem_of_singleton in Hk' as ->.
Qed.

(** On an object that holds data only, and no key twice, [setKeys] in
    place is [setKeys] on the data: the two agree on what is written, and
    on the error. *)
Lemma setKeys_at_data l (h : store) obj :
  h !! l = Some (data_fields obj) → NoDup obj.*1 →
  match setKeys obj with
  | Return obj1 => setKeys_at l h = (<[l := data_fields obj1]> h, Return ())
  | Throw e => (setKeys_at l h).2 = Throw e
  end.
Proof.
  intros Hobj Hnodup. unfold setKeys_at. cbn [setKeys_fuel].
  rewrite setKeys_source_order, (object_at_lookup _ _ _ Hobj).
  assert (arrayLikeLength_at (data_fields obj) = arrayLikeLength obj) as ->.
  { unfold arrayLikeLength_at, arrayLikeLength. by rewrite get_cell_data. }
  assert (publicKeys_at (data_fields obj) = publicKeys obj) as ->.
  { unfold publicKeys_at, publicKeys. by rewrite data_fields_keys. }
  rewrite !(write_data_lookup l _ _ obj h Hobj).
  destruct (arrayLikeLength obj) as [n|].
  - by destruct (MAX_ARRAY_LENGTH <? n)%Z.
  - rewrite object_at_insert, data_fields_keys.
    apply (each_at_data (setKeys_fuel (size h)) l h []).
    by apply NoDup_set_prop_keys.
Qed.

(** The nested context, held as data behind one reference. *)
Example setKeys_at_nested :
  match setKeys Demo.nested with
  | Return obj1 =>
      setKeys_at 1%positive {[ 1%positive := data_fields Demo.nested ]}
      = ({[ 1%positive := data_fields obj1 ]}, Return ())
  | Throw _ => False
  end.
Proof. by vm_compute. Qed.

(** ** [setKeys] in place: the stack it needs *)

Lemma nests_kept h h' n l : kept_store h h' → nests h n l → nests h' n l.
Proof.
  intros [Hdom Hkept]. revert l. induction n as [|n IH]; intros l; [done|].
  cbn [nests]. intros Hnests key nested Hin. apply IH, (Hnests key).
  unfold object_at in *.
  destruct (h' !! l) as [obj'|] eqn:Hobj'; [|by apply elem_of_nil in Hin].
  assert (is_Some (h !! l)) as [obj Hobj].
  { apply elem_of_dom. rewrite <- Hdom. apply elem_of_dom. by eexists. }
  rewrite Hobj. simpl in *. by apply (Hkept l obj obj' Hobj Hobj').
Qed.

Lemma each_at_enough recur recur' n l keys h :
  (∀ nested h, kept_store h (recur nested h).1) →
  (∀ nested h, nests h n nested → recur' nested h = recur nested h) →
  nests h (S n) l →
  each_at recur' l keys h = each_at recur l keys h.
Proof.
  intros Hkept Hsame. revert h.
  induction keys as [|key rest IH]; intros h Hnests; cbn [each_at]; [done|].
  destruct (isPublicKey key) eqn:Hkey; [|by apply IH].
  destruct (get_cell key (object_at h l)) as [val|nested] eqn:Hget.
  - destruct (setKeys_if_plain val) as [val'|e]; [|done].
    apply IH. eapply nests_kept; [|done]. apply kept_store_write. by left.
  - rewrite Hsame by (apply (Hnests key); by apply get_cell_Ref).
    pose proof (Hkept nested h) as Hstep.
    destruct (recur nested h) as [h1 [[]|e]]; [|done].
    apply IH. by eapply nests_kept.
Qed.

(** More stack than the nesting is deep makes no difference. *)
Lemma setKeys_fuel_enough n fuel l h :
  nests h n l → (n ≤ fuel)%nat → setKeys_fuel fuel l h = setKeys_fuel n l h.
Proof.
  revert fuel l h. induction n as [|n IH]; intros fuel l h Hnests Hle; [done|].
  destruct fuel as [|fuel]; [lia|]. cbn [setKeys_fuel].
  destruct (arrayLikeLength_at (object_at h l)) as [m|]; [done|].
  apply each_at_enough with (n := n).
  - intros nested h'. apply setKeys_fuel_kept.
  - intros nested h' Hnested. apply IH; [done|lia].
  - eapply nests_kept; [|done]. apply kept_store_write. by right.
Qed.

(** In a store without a circle (its references lead from an object to
    objects of lower rank) no object nests deeper than the store has
    objects. *)
Lemma nests_stack (h : store) (rank : loc → nat) (stack : list loc) n l :
  (∀ l obj key nested, h !! l = Some obj → (key, Ref nested) ∈ obj →
                       (rank nested < rank l)%nat) →
  NoDup stack → (∀ x, x ∈ stack → x ∈ dom h ∧ (rank l < rank x)%nat) →
  (length stack + n = S (size h))%nat →
  nests h n l.
Proof.
  intros Hrank. revert stack l. induction n as [|n IH]; intros stack l Hnodup Hstack Hsize.
  - assert (length stack ≤ size (dom h))%nat as Hle.
    { change (size (dom h)) with (length (elements (dom h))).
      apply submseteq_length.
      apply NoDup_submseteq; [done|]. intros x Hx.
      apply elem_of_elements. by apply Hstack. }
    rewrite size_dom in Hle. lia.
  - cbn [nests]. intros key nested Hin. unfold object_at in Hin.
    destruct (h !! l) as [obj|] eqn:Hobj; [|by apply elem_of_nil in Hin].
    simpl in Hin. pose proof (Hrank l obj key nested Hobj Hin) as Hlt.
    apply (IH (l :: stack)).
    + constructor; [|done]. intros Hl. apply Hstack in Hl as [_ Hl]. lia.
    + intros x [->|Hx]%elem_of_cons.
      * split; [|done]. apply elem_of_dom. by eexists.
      * apply Hstack in Hx as [Hx Hlt']. split; [done|lia].
    + simpl. lia.
Qed.

(** So in a store without a circle [setKeys] has all the stack it can
    use: more would make no difference. *)
Lemma setKeys_at_enough (h : store) (rank : loc → nat) fuel l :
  (∀ l obj key nested, h !! l = Some obj → (key, Ref nested) ∈ obj →
                       (rank nested < rank l)%nat) →
  (S (size h) ≤ fuel)%nat → setKeys_fuel fuel l h = setKeys_at l h.
Proof.
  intros Hrank Hle. apply setKeys_fuel_enough; [|done].
  apply (nests_stack h rank []); [done|constructor| |done].
  by intros x Hx%elem_of_nil.
Qed.

(** ** The reference collaborators keep their contracts *)

Lemma grown_refl h : grown h h.
Proof.
  split; [done|]. split; [set_solver|].
  intros l obj key c Hl. set_solver.
Qed.

Lemma grown_trans h1 h2 h3 : grown h1 h2 → grown h2 h3 → grown h1 h3.
Proof.
  intros [Hsub1 Hnew1] [Hsub2 Hnew2].
  pose proof (subseteq_dom _ _ Hsub1) as Hdom1.
  pose proof (subseteq_dom _ _ Hsub2) as Hdom2.
  split; [by etrans|].
  pose proof (closed_subseteq _ _ _ Hsub2 Hnew1) as Hnew1'.
  pose proof (closed_union _ _ _ Hnew1' Hnew2) as Hboth.
  replace (dom h3 ∖ dom h1) with ((dom h2 ∖ dom h1) ∪ (dom h3 ∖ dom h2));
    [done|].
  apply set_eq. intros l. rewrite elem_of_union, !elem_of_difference.
  destruct (decide (l ∈ dom h2)); set_solver.
Qed.

(** A new object that refers to new objects only. *)
Lemma grown_alloc h0 h obj :
  grown h0 h →
  (∀ key c, (key, Ref c) ∈ obj → c ∈ dom h ∖ dom h0) →
  grown h0 (alloc obj h).1 ∧ (alloc obj h).2 ∈ dom (alloc obj h).1 ∖ dom h0 ∧
  h ⊆ (alloc obj h).1.
Proof.
  intros [Hsub [Hdom Hrefs]] Hobj.
  pose proof (alloc_fresh obj h) as Hfresh. rewrite alloc_store.
  set (l := (alloc obj h).2) in *.
  pose proof (subseteq_dom _ _ Hsub) as Hdom0.
  assert (h ⊆ <[l := obj]> h) as Hsub'.
  { apply insert_subseteq. by apply not_elem_of_dom. }
  split; [|split; [|done]].
  - split; [by etrans|]. rewrite dom_insert_L. split; [set_solver|].
    intros l' obj' key c Hl' Hobj' Hin. destruct (decide (l = l')) as [<-|Hne].
    + rewrite lookup_insert_eq in Hobj'. injection Hobj' as <-.
      specialize (Hobj key c Hin). set_solver.
    + rewrite lookup_insert_ne in Hobj' by done.
      assert (l' ∈ dom h ∖ dom h0) as Hold by set_solver.
      pose proof (Hrefs l' obj' key c Hold Hobj' Hin). set_solver.
  - rewrite dom_insert_L. set_solver.
Qed.

Lemma clone_fields_grown recur obj h0 h :
  (∀ l h, grown h (recur l h).1 ∧ (recur l h).2 ∈ dom (recur l h).1 ∖ dom h) →
  grown h0 h →
  grown h0 (clone_fields recur obj h).1 ∧
  h ⊆ (clone_fields recur obj h).1 ∧
  ∀ key c, (key, Ref c) ∈ (clone_fields recur obj h).2 →
           c ∈ dom (clone_fields recur obj h).1 ∖ dom h0.
Proof.
  intros Hrecur. revert h.
  induction obj as [|[key [v|l]] rest IH]; intros h Hgrown; cbn [clone_fields].
  - split; [done|]. split; [done|]. intros key c []%elem_of_nil.
  - specialize (IH h Hgrown).
    destruct (clone_fields recur rest h) as [h' rest']. simpl in *.
    destruct IH as (Hg & Hsub & Hrefs). split; [done|]. split; [done|].
    intros k c [Heq|Hin]%elem_of_cons; [discriminate Heq|]. eauto.
  - destruct (Hrecur l h) as [Hstep Hnew].
    destruct (recur l h) as [h1 l']. simpl in *.
    pose proof (grown_trans _ _ _ Hgrown Hstep) as Hgrown1.
    specialize (IH h1 Hgrown1).
    destruct (clone_fields recur rest h1) as [h2 rest']. simpl in *.
    destruct IH as (Hg & Hsub & Hrefs).
    destruct Hstep as [Hsub1 _]. destruct Hgrown as [Hsub0 _].
    pose proof (subseteq_dom _ _ Hsub) as Hdom.
    pose proof (subseteq_dom _ _ Hsub0) as Hdom0.
    split; [done|]. split; [by etrans|].
    intros k c [[= _ <-]|Hin]%elem_of_cons; [set_solver|]. eauto.
Qed.

Lemma cloneDeep_fuel_grown fuel l h :
  grown h (cloneDeep_fuel fuel l h).1 ∧
  (cloneDeep_fuel fuel l h).2 ∈ dom (cloneDeep_fuel fuel l h).1 ∖ dom h.
Proof.
  revert l h. induction fuel as [|fuel IH]; intros l h; cbn [cloneDeep_fuel].
  - destruct (grown_alloc h h [] (grown_refl h)) as (Hg & Hnew & _); [|done].
    intros key c []%elem_of_nil.
  - pose proof (clone_fields_grown (cloneDeep_fuel fuel) (object_at h l) h h
                  IH (grown_refl h)) as (Hg & _ & Hrefs).
    destruct (clone_fields _ _ h) as [h' copy]. simpl in *.
    by destruct (grown_alloc h h' copy Hg Hrefs) as (Hg' & Hnew & _).
Qed.

Lemma cloneDeep_tree_fresh : cloneDeep_fresh lodashTree.
Proof.
  intros value h.
  destruct (cloneDeep_fuel_grown (S (size h)) value h) as [[Hsub Hnew] Hclone].
  split; [exact Hsub|]. split; [exact Hclone|exact Hnew].
Qed.

Lemma confined_refl S h : closed h S → confined S h h.
Proof. by split. Qed.

Lemma confined_trans S h1 h2 h3 :
  confined S h1 h2 → confined S h2 h3 → confined S h1 h3.
Proof.
  intros [_ Hout1] [Hclosed Hout2]. split; [done|].
  intros l Hl. by rewrite Hout2, Hout1.
Qed.

Lemma confined_write S h l key c :
  closed h S → l ∈ S → (∀ nested, c = Ref nested → nested ∈ S) →
  confined S h (write l key c h).
Proof.
  intros Hclosed Hl Hc. split; [by apply closed_write|].
  intros l' Hl'. apply write_lookup_ne. by intros ->.
Qed.

Lemma merge_fields_confined recur S obj src h :
  (∀ o s h, closed h S → o ∈ S → s ∈ S → confined S h (recur o s h)) →
  closed h S → obj ∈ S → (∀ key c, (key, Ref c) ∈ src → c ∈ S) →
  confined S h (merge_fields recur obj src h).
Proof.
  intros Hrecur. revert h.
  induction src as [|[key srcValue] rest IH]; intros h Hclosed Hobj Hsrc;
    cbn [merge_fields]; [by apply confined_refl|].
  assert (∀ nested, srcValue = Ref nested → nested ∈ S) as Hvalue.
  { intros nested ->. apply (Hsrc key). apply list_elem_of_here. }
  assert (∀ key c, (key, Ref c) ∈ rest → c ∈ S) as Hrest.
  { intros k c Hin. apply (Hsrc k). by apply list_elem_of_further. }
  assert (confined S h (write obj key srcValue h)) as Hwrite
    by by apply confined_write.
  set (h1 := match srcValue with
             | Data VUndefined => _
             | _ => _
             end).
  assert (confined S h h1) as Hstep.
  { subst h1. destruct srcValue as [v|s].
    - destruct v; try done. case_bool_decide; [by apply confined_refl|done].
    - destruct (get_cell key (object_at h obj)) as [v|o] eqn:Hget; [done|].
      apply Hrecur; [done| |by apply Hvalue].
      by eapply closed_get_cell. }
  eapply confined_trans; [exact Hstep|]. apply IH; [|done..].
  by destruct Hstep.
Qed.

Lemma mergeWith_fuel_confined fuel S obj src h :
  closed h S → obj ∈ S → src ∈ S → confined S h (mergeWith_fuel fuel obj src h).
Proof.
  revert obj src h. induction fuel as [|fuel IH]; intros obj src h Hclosed Hobj Hsrc;
    cbn [mergeWith_fuel]; [by apply confined_refl|].
  apply merge_fields_confined; try done.
  intros key c Hin. destruct Hclosed as [Hdom Hrefs].
  pose proof (Hdom _ Hsrc) as Hthere. apply elem_of_dom in Hthere as [fs Hfs].
  rewrite (object_at_lookup _ _ _ Hfs) in Hin. eauto.
Qed.

Lemma mergeWith_fuel_dom fuel obj src h :
  dom (mergeWith_fuel fuel obj src h) = dom h.
Proof.
  revert obj src h. induction fuel as [|fuel IH]; intros obj src h;
    cbn [mergeWith_fuel]; [done|].
  generalize (object_at h src). intros fs. revert h.
  induction fs as [|[key srcValue] rest IHrest]; intros h;
    cbn [merge_fields]; [done|].
  rewrite IHrest. destruct srcValue as [v|s].
  - destruct v; try apply write_dom. case_bool_decide; [done|apply write_dom].
  - destruct (get_cell key (object_at h obj)); [apply write_dom|apply IH].
Qed.

Lemma defaultsDeep_tree_eq target defaults h :
  defaultsDeep_tree target defaults h =
  let output := fresh (dom h) in
  let h0 := <[output := []]> h in
  let h1 := mergeWith_fuel (S (size h0)) output defaults h0 in
  (mergeWith_fuel (S (size h1)) output target h1, output).
Proof. reflexivity. Qed.

Lemma defaultsDeep_tree_object : defaultsDeep_object fractalUtils.
Proof.
  intros target defaults h. cbn [defaultsDeep fractalUtils].
  rewrite defaultsDeep_tree_eq. cbv zeta. cbn [fst snd].
  rewrite !mergeWith_fuel_dom, dom_insert_L. set_solver.
Qed.

Lemma defaultsDeep_tree_local : defaultsDeep_local fractalUtils.
Proof.
  intros target defaults h S Hclosed Htarget Hdefaults.
  pose proof (defaultsDeep_tree_object target defaults h) as Hobject.
  revert Hobject. cbn [defaultsDeep fractalUtils].
  rewrite defaultsDeep_tree_eq. cbv zeta. cbn [fst snd].
  set (output := fresh (dom h)). set (h0 := <[output := []]> h).
  assert (output ∉ dom h) as Hfresh by apply is_fresh.
  assert (h ⊆ h0) as Hsub by (apply insert_subseteq; by apply not_elem_of_dom).
  assert (closed h0 (S ∪ {[output]})) as Hclosed0.
  { apply closed_union; [by eapply closed_subseteq|].
    split; [subst h0; rewrite dom_insert_L; set_solver|].
    intros l obj key c ->%elem_of_singleton. subst h0.
    rewrite lookup_insert_eq. by intros [= <-] []%elem_of_nil. }
  set (h1 := mergeWith_fuel _ output defaults h0).
  assert (confined (S ∪ {[output]}) h0 h1) as [Hclosed1 Hout1].
  { apply mergeWith_fuel_confined; [done|set_solver..]. }
  set (h2 := mergeWith_fuel _ output target h1).
  assert (confined (S ∪ {[output]}) h1 h2) as [Hclosed2 Hout2].
  { apply mergeWith_fuel_confined; [done|set_solver..]. }
  intros Hobject.
  assert (dom h2 ∖ dom h ⊆ {[output]}) as Hnew.
  { intros l [Hl Hold]%elem_of_difference.
    destruct (decide (l ∈ S ∪ {[output]})) as [Hin|Hout].
    - destruct Hclosed as [HS _]. set_solver.
    - assert (h2 !! l = h0 !! l) as Heq by (by rewrite Hout2, Hout1).
      apply elem_of_dom in Hl. rewrite Heq in Hl. apply elem_of_dom in Hl.
      subst h0. rewrite dom_insert_L in Hl. set_solver. }
  assert (S ∪ (dom h2 ∖ dom h) = S ∪ {[output]}) as Hset.
  { apply set_eq. intros l. rewrite !elem_of_union. split.
    - intros [?|?]; [by left|right; by apply Hnew].
    - intros [?|Hl]; [by left|right]. apply elem_of_singleton in Hl as ->.
      by apply elem_of_difference. }
  split; [|split; [|split]].
  - intros l obj Hl Hobj.
    assert (l ≠ output) as Hne.
    { intros ->. apply Hfresh, elem_of_dom. by eexists. }
    rewrite Hout2, Hout1 by set_solver. subst h0.
    by rewrite lookup_insert_ne.
  - intros l Hl. destruct (decide (l ∈ S ∪ {[output]})) as [Hin|Hout].
    + destruct Hclosed2 as [Hdom2 _]. by apply Hdom2.
    + apply elem_of_dom. rewrite Hout2, Hout1 by done. apply elem_of_dom.
      subst h0. rewrite dom_insert_L. set_solver.
  - by rewrite Hset.
  - rewrite Hset. set_solver.
Qed.

(** ** The patched render *)

Section PatchedRender.
Context {Path : NodePath} {lodash : Lodash} {utils : FractalUtils}
  {RegExp : RegExpEngine} {Twig : TwigEngine}.
Variable self : TwigAdapter.

(** What the two library functions of line 76 are taken to do. *)
Hypothesis cloneDeep_is_fresh : cloneDeep_fresh lodash.
Hypothesis defaultsDeep_returns_object : defaultsDeep_object utils.
Hypothesis defaultsDeep_is_local : defaultsDeep_local utils.

(** Lines 76-77 write to objects of the entity's context and to objects
    they make, and to no other; what they hand on leads to such objects
    only. *)
Lemma merged_context_local entity context h S :
  closed h S → getContext entity ∈ S →
  (∀ l obj, l ∉ S → h !! l = Some obj →
            (merged_context entity context h).1 !! l = Some obj) ∧
  dom h ⊆ dom (merged_context entity context h).1 ∧
  closed (merged_context entity context h).1
    (S ∪ (dom (merged_context entity context h).1 ∖ dom h)) ∧
  (merged_context entity context h).2
    ∈ S ∪ (dom (merged_context entity context h).1 ∖ dom h).
Proof.
  clear defaultsDeep_returns_object.
  intros Hclosed Hentity. unfold merged_context.
  destruct (cloneDeep_is_fresh context h) as (Hsub & Hclone & Hnew).
  destruct (cloneDeep context h) as [h1 clone]. simpl in Hsub, Hclone, Hnew.
  pose proof (subseteq_dom _ _ Hsub) as Hdom1.
  pose proof (closed_union _ _ _ (closed_subseteq _ _ _ Hsub Hclosed) Hnew)
    as Hclosed1.
  destruct (defaultsDeep_is_local clone (getContext entity) h1 _ Hclosed1)
    as (Hout & Hdom2 & Hclosed2 & Hmerged); [set_solver..|].
  destruct (defaultsDeep clone (getContext entity) h1) as [h2 merged].
  simpl in Hout, Hdom2, Hclosed2, Hmerged. cbn [fst snd].
  assert (S ∪ (dom h1 ∖ dom h) ∪ (dom h2 ∖ dom h1) = S ∪ (dom h2 ∖ dom h))
    as Hset.
  { apply set_eq. intros l. rewrite !elem_of_union, !elem_of_difference.
    destruct (decide (l ∈ dom h1)); set_solver. }
  rewrite Hset in Hclosed2, Hmerged. rewrite write_dom.
  split; [|split; [set_solver|split; [|done]]].
  - intros l obj Hl Hobj.
    assert (l ∈ dom h) as Hthere by (apply elem_of_dom; by eexists).
    rewrite write_lookup_ne.
    + apply Hout; [set_solver|]. by eapply lookup_weaken.
    + intros <-. set_solver.
  - by apply closed_write.
Qed.


(** Lines 76-78, with [setKeys]: the same objects are written to, and none
    beside them. *)
Lemma import_context_local entity context h S :
  closed h S → getContext entity ∈ S →
  (∀ l obj, l ∉ S → h !! l = Some obj →
            (import_context entity context h).1 !! l = Some obj) ∧
  dom h ⊆ dom (import_context entity context h).1 ∧
  (∀ context', (import_context entity context h).2 = Return context' →
               context' ∈ S ∨ context' ∉ dom h).
Proof.
  clear defaultsDeep_returns_object.
  intros Hclosed Hentity. unfold import_context.
  destruct (merged_context_local entity context h S Hclosed Hentity)
    as (Hout & Hdom & Hclosed' & Hmerged).
  destruct (merged_context entity context h) as [h1 merged].
  simpl in Hout, Hdom, Hclosed', Hmerged.
  pose proof (λ l, setKeys_fuel_frame (Datatypes.S (size h1)) _ merged h1 l
                     Hclosed' Hmerged) as Hframe.
  fold (setKeys_at merged h1) in Hframe.
  assert (∀ l obj, l ∉ S → h !! l = Some obj →
                   (setKeys_at merged h1).1 !! l = Some obj) as Hall.
  { intros l obj Hl Hobj. rewrite Hframe; [by apply Hout|].
    assert (l ∈ dom h) by (apply elem_of_dom; by eexists). set_solver. }
  assert (merged ∈ S ∨ merged ∉ dom h) as Hwhere by set_solver.
  destruct (setKeys_fuel_kept (Datatypes.S (size h1)) merged h1) as [Hdom' _].
  fold (setKeys_at merged h1) in Hdom'.
  destruct (setKeys_at merged h1) as [h2 [[]|e]]; simpl in Hall, Hdom' |- *;
    (split; [done|split; [by rewrite Hdom'|]]); [|done].
  by intros context' [= <-].
Qed.



End PatchedRender.

(** ** The patched render on the small library *)

Section PatchedRenderExamples.
#[local] Existing Instance Demo.Path.
#[local] Existing Instance Demo.lodash.
#[local] Existing Instance Demo.utils.
#[local] Existing Instance Demo.RegExp.
#[local] Existing Instance Demo.Twig.

(** The button, included from the page.  The clone of the page's context
    is made of objects 5 and 6; the context the original render gets is
    object 7, with the button's default variant under [_self].  It shares
    object 4 with the button's own context and object 5 with the clone,
    and [setKeys] has written to both.  Objects 1 and 2, the page's, are
    as they were. *)
Example patch_context_button :
  patch_context (Demo.adapter true) (Demo.compiled Demo.button) 1%positive
    Demo.pageStore
  = ({[ 1%positive := [("title", Data (VString "Home")); ("hero", Ref 2%positive);
                       ("_self", Data (VObject [("handle", VString "home")]))];
        2%positive := [("image", Data (VString "hero.png"))];
        3%positive := [("label", Data (VString "OK")); ("icon", Ref 4%positive)];
        4%positive := [("name", Data (VString "check"));
                       ("_keys", Data (VArray [VString "name"]))];
        5%positive := [("image", Data (VString "hero.png"));
                       ("_keys", Data (VArray [VString "image"]))];
        6%positive := [("title", Data (VString "Home")); ("hero", Ref 5%positive);
                       ("_self", Data (VObject [("handle", VString "home")]))];
        7%positive :=
          [("label", Data (VString "OK")); ("icon", Ref 4%positive);
           ("title", Data (VString "Home")); ("hero", Ref 5%positive);
           ("_self", Data (VObject [("handle", VString "button--default")]));
           ("_keys", Data (VArray [VString "label"; VString "icon";
                                   VString "title"; VString "hero"]))] ]},
     Return 7%positive).
Proof. by vm_compute. Qed.


(** The component and its variant, each with [importContext] on: [_self]
    is the default variant's serialization, the page's own is gone. *)
Example patched_render_self_button :
  get_cell "_self"
    (object_at (patch_context (Demo.adapter true) (Demo.compiled Demo.button)
                  1%positive Demo.pageStore).1 7%positive)
  = Data (VObject [("handle", VString "button--default")]) ∧
  get_cell "_self"
    (object_at (patch_context (Demo.adapter true) Demo.buttonVariant
                  1%positive Demo.pageStore).1 7%positive)
  = Data (VObject [("handle", VString "button--default")]) ∧
  patch_context (Demo.adapter true)
    (NewTemplate (mkParams (Some "@menu") None None)) 1%positive Demo.pageStore
  = (Demo.pageStore, Throw TypeError).
Proof. by vm_compute. Qed.


(** Where the caller's context holds an object of the entity's context,
    that object is written to: here the page holds the button's icon
    (object 4), and finds [_keys] on it afterwards. *)
Example patch_context_shared_object :
  let shared := <[1%positive := [("title", Data (VString "Home"));
                                 ("icon", Ref 4%positive)]]> Demo.pageStore in
  shared !! 4%positive = Some [("name", Data (VString "check"))] ∧
  (patch_context (Demo.adapter true) (Demo.compiled Demo.button) 1%positive
     shared).1 !! 4%positive
  = Some [("name", Data (VString "check"));
          ("_keys", Data (VArray [VString "name"]))].
Proof. by vm_compute. Qed.

(** With [importContext] off the context is passed through. *)
Example patch_context_off :
  patch_context (Demo.adapter false) (Demo.compiled Demo.button) 1%positive
    Demo.pageStore = (Demo.pageStore, Return 1%positive).
Proof. reflexivity. Qed.

End PatchedRenderExamples.

(* ===================================================================== *)
(** * Further properties of the adapter                                   *)
(* ===================================================================== *)

(** ** The loader, branch by branch *)

Lemma startsWith_String c str d p :
  startsWith (String c str) (String d p) =
  if Ascii.ascii_dec d c then startsWith str p else false.
Proof. reflexivity. Qed.

Section LoaderBranches.
Context {Path : NodePath}.
Variable self : TwigAdapter.

(** X1: source that comes precompiled and is not empty becomes the data of
    the template as it is, whatever the location and with no lookup; an
    empty one counts as none, and the location is looked up instead. *)
Theorem loader_precompiled location params src :
  precompiled params = Some src →
  (src ≠ "" →
     loader self location params =
       Return (NewTemplate (mkParams (id params) (Some src) (Some src)))) ∧
  (src = "" →
     loader self location params =
       match loader_view self location with
       | Return (Some view) =>
           Return (NewTemplate
                     (mkParams (id params) (Some "") (Some (content view))))
       | Return None => Throw (Error (notFoundMessage location))
       | Throw e => Throw e
       end).
Proof.
  intros Hpre. unfold loader. rewrite Hpre. split.
  - intros Hsrc. apply truthy_string_true in Hsrc. simpl. by rewrite Hsrc.
  - intros ->. simpl. by destruct (loader_view self location) as [[view|]|].
Qed.

(** X2: a handle that is not rooted is resolved by [getView] alone: the
    template gets the content of the view [getView] answers, and the
    "not found" error when it answers none; [views] is not searched. *)
Theorem loader_handle location params :
  truthy (precompiled params) = false →
  startsWith location "/" = false →
  isHandle self location = true →
  loader self location params =
    match getView self location with
    | Some view =>
        Return (NewTemplate
                  (mkParams (id params) (precompiled params) (Some (content view))))
    | None => Throw (Error (notFoundMessage location))
    end.
Proof.
  intros Hpre Hrel Hhandle. unfold loader, loader_view.
  rewrite Hpre, Hrel, Hhandle. simpl. by destruct (getView self location).
Qed.

(** X3: where no source came precompiled, the loader throws the
    [ReferenceError] of [fixIncludePath] for every rooted location with a
    folder name among its chunks, before it looks anything up (so also
    for a handle, and whatever the views are), and its own "not found"
    error whenever the lookup returns no view. *)
Theorem loader_throw_conditions location params :
  truthy (precompiled params) = false →
  (∀ chunk, startsWith location "/" = true →
            chunk ∈ split "/" location →
            includes firstLevelFolderNames chunk = true →
            loader_view self location = Throw (ReferenceError "source") ∧
            loader self location params = Throw (ReferenceError "source")) ∧
  (loader_view self location = Return None →
   loader self location params = Throw (Error (notFoundMessage location))).
Proof.
  intros Hpre. split.
  - intros chunk Hrooted Hchunk Hfolder.
    assert (loader_view self location = Throw (ReferenceError "source")) as Hview.
    { unfold loader_view.
      by rewrite Hrooted, (fixIncludePath_throws location chunk). }
    split; [done|]. unfold loader. by rewrite Hpre, Hview.
  - intros Hview. unfold loader. by rewrite Hpre, Hview.
Qed.

(** X5: a rooted location is a handle only under a handle prefix that is
    empty or itself begins with a slash; under any other prefix, the
    default [@] among them, the loader looks a rooted location up by the
    path [fixIncludePath] returns and never asks [getView]. *)
Theorem isHandle_rooted location :
  startsWith location "/" = true →
  isHandle self location = true →
  handlePrefix (config self) = "" ∨
  startsWith (handlePrefix (config self)) "/" = true.
Proof.
  intros Hrooted Hhandle. unfold isHandle in Hhandle.
  apply andb_prop in Hhandle as [_ Hprefix].
  destruct (handlePrefix (config self)) as [|c p]; [by left|right].
  destruct location as [|d rest]; [discriminate Hrooted|].
  rewrite startsWith_String in Hrooted, Hprefix.
  destruct (Ascii.ascii_dec "/" d) as [<-|]; [|done].
  destruct (Ascii.ascii_dec c "/") as [->|]; [|done].
  rewrite startsWith_String.
  destruct (Ascii.ascii_dec "/" "/"); [by destruct p|done].
Qed.

End LoaderBranches.

Section FixIncludePathOutcome.
Context {Path : NodePath}.

(** X4: [fixIncludePath] returns no path for any location: it throws the
    [ReferenceError] when some chunk of the location is a folder name,
    and returns [undefined] when none is. *)
Theorem fixIncludePath_throws_or_undefined location :
  (existsb (includes firstLevelFolderNames) (split "/" location) = true ∧
   fixIncludePath location = Throw (ReferenceError "source")) ∨
  (existsb (includes firstLevelFolderNames) (split "/" location) = false ∧
   fixIncludePath location = Return None).
Proof.
  destruct (existsb _ _) eqn:Hany.
  - left. split; [done|]. apply existsb_exists in Hany as (chunk & Hin & Hc).
    apply (fixIncludePath_throws location chunk); [|done].
    by apply list_elem_of_In.
  - right. split; [done|].
    rewrite fixIncludePath_outcome, fixIncludePath_anchor_none; [done|].
    intros c Hc. destruct (includes firstLevelFolderNames c) eqn:Hin; [|done].
    rewrite <- Hany. symmetry. apply existsb_exists. exists c.
    split; [by apply list_elem_of_In|done].
Qed.

End FixIncludePathOutcome.

(** ** [setKeys]: what it writes and what it leaves *)

(** What [each] made of the value under a public key is what [recur] made
    of it. *)
Lemma each_get_public recur obj obj' key :
  Forall2 (each_step recur) obj obj' →
  isPublicKey key = true →
  recur VUndefined = Return VUndefined →
  recur (get key obj) = Return (get key obj').
Proof.
  intros Hall Hkey Hundefined.
  induction Hall as [|[k v] [k' v'] rest rest' [Hk Hv] _ IH]; simpl; [done|].
  simpl in Hk, Hv. subst k'.
  destruct (String.eqb_spec k key) as [->|_]; [|done].
  by rewrite Hkey in Hv.
Qed.

(** X6: after [setKeys], [_keys] lists, in enumeration order, the own keys
    of the object that are not empty and do not begin with an underscore,
    and nothing else.  For an array-like object it is empty, and it is all
    that has changed: no nested object has got a [_keys].  The property
    named by the empty string is left out of [_keys], although [setKeys]
    does descend into its value: a plain object under the empty key comes
    out as [setKeys] leaves it, with a [_keys] of its own. *)
Theorem setKeys_keys_listed obj obj1 :
  setKeys obj = Return obj1 →
  get "_keys" obj1 =
    VArray (match arrayLikeLength obj with
            | Some _ => []
            | None =>
                VString <$>
                  List.filter
                    (λ key, negb (startsWith key "_") && negb (String.eqb key ""))
                    obj.*1
            end) ∧
  (arrayLikeLength obj ≠ None → obj1 = set_prop "_keys" (VArray []) obj) ∧
  (∀ nested, arrayLikeLength obj = None → get "" obj = VObject nested →
     ∃ nested1, setKeys nested = Return nested1 ∧
                get "" obj1 = VObject nested1 ∧
                get "_keys" nested1 ≠ VUndefined).
Proof.
  intros Hset. apply setKeys_Return in Hset.
  destruct (arrayLikeLength obj) as [n|].
  - destruct Hset as [_ ->]. rewrite get_set_prop_eq. by repeat split.
  - destruct Hset as (obj' & Hall & ->). rewrite get_set_prop_eq.
    repeat split; [done|].
    intros nested _ Hget. rewrite get_set_prop_ne by done.
    pose proof (each_get_public _ _ _ "" Hall eq_refl eq_refl) as Hrun.
    rewrite Hget, setKeys_if_plain_object in Hrun.
    destruct (setKeys nested) as [nested1|] eqn:Hnested; [|done].
    injection Hrun as Hrun. exists nested1. split; [done|]. split; [done|].
    apply setKeys_Return in Hnested.
    destruct (arrayLikeLength nested).
    + destruct Hnested as [_ ->]. by rewrite get_set_prop_eq.
    + destruct Hnested as (? & _ & ->). by rewrite get_set_prop_eq.
Qed.

(** X7: [setKeys] adds [_keys], after the other properties, when the object
    had none, and otherwise keeps the properties and their order; under
    any other key a value that is not a plain object (a string, a number,
    an array, with whatever is inside it) is left as it is, and a plain
    object stays a plain object. *)
Theorem setKeys_frame obj obj1 :
  setKeys obj = Return obj1 →
  obj1.*1 = (if bool_decide ("_keys" ∈ obj.*1) then obj.*1
             else obj.*1 ++ ["_keys"]) ∧
  (∀ key, key ≠ "_keys" → (∀ props, get key obj ≠ VObject props) →
          get key obj1 = get key obj) ∧
  (∀ key props, key ≠ "_keys" → get key obj = VObject props →
                ∃ props', get key obj1 = VObject props').
Proof.
  intros Hset. apply setKeys_Return in Hset.
  destruct (arrayLikeLength obj) as [n|].
  - destruct Hset as [_ ->]. rewrite set_prop_keys. split; [done|]. split.
    + intros key Hne _. by rewrite get_set_prop_ne.
    + intros key props Hne Hget. rewrite get_set_prop_ne by done. by eexists.
  - destruct Hset as (obj' & Hall & ->).
    rewrite set_prop_keys, (each_keys _ _ _ Hall). split; [done|]. split.
    + intros key Hne Hother. rewrite get_set_prop_ne by done.
      pose proof (each_get_same_kind obj obj' key Hall) as Hkind.
      destruct (get key obj); try done. by destruct (Hother props).
    + intros key props Hne Hget. rewrite get_set_prop_ne by done.
      pose proof (each_get_same_kind obj obj' key Hall) as Hkind.
      by rewrite Hget in Hkind.
Qed.


(** ** [unCache]: what it leaves *)

Section UnCacheFrame.
Context {Path : NodePath}.
Variable self : TwigAdapter.

(** X9: [unCache] only ever removes entries, and none but the two it is
    after: an entry under a key that is neither the relative path of the
    change nor the handle it carries stays as it is.  A change that
    carries only a path therefore leaves the entry under the view's handle
    in the registry. *)
Theorem unCache_keeps_other_entries view registry key :
  key ≠ Path_relative (fullPath (source self)) (changed_path view) →
  changed_handle view ≠ Some key →
  unCache self view registry !! key = registry !! key ∧
  unCache self view registry ⊆ registry.
Proof.
  intros Hpath Hhandle. rewrite unCache_deletes. split.
  - rewrite lookup_delete_ne by done.
    destruct (changed_handle view) as [hd|]; [|done].
    destruct (truthy_string hd); [|done].
    apply lookup_delete_ne. by intros ->.
  - etrans; [apply delete_subseteq|].
    destruct (changed_handle view) as [hd|]; [|done].
    destruct (truthy_string hd); [apply delete_subseteq|done].
Qed.

(** X10: two changes can be handled in either order: the registry ends up
    the same. *)
Theorem unCache_commutes view1 view2 registry :
  unCache self view1 (unCache self view2 registry)
  = unCache self view2 (unCache self view1 registry).
Proof.
  rewrite !unCache_deletes. apply map_eq. intros key.
  destruct (changed_handle view1) as [hd1|], (changed_handle view2) as [hd2|];
    try destruct (truthy_string hd1); try destruct (truthy_string hd2);
    rewrite ?lookup_delete; repeat case_decide; done.
Qed.

End UnCacheFrame.

(** ** The patched render: when it steps aside, and what it never touches *)

Section PatchedRenderFrame.
Context {Path : NodePath} {lodash : Lodash} {utils : FractalUtils}
  {RegExp : RegExpEngine} {Twig : TwigEngine}.
Variable self : TwigAdapter.

Hypothesis cloneDeep_is_fresh : cloneDeep_fresh lodash.
Hypothesis defaultsDeep_is_local : defaultsDeep_local utils.

(** X11: the patched render is the original render, on the caller's own
    context and an unchanged store, in pristine mode, for a template
    without an id, for a template whose id leads to no handle, and, when
    the entity lookup returns, with [importContext] off. *)
Theorem patched_render_passes_through this context h :
  pristine (config self) = true ∨
  truthy (template_id this) = false ∨
  (∃ this_id, template_id this = Some this_id ∧
              truthy (owner_handle self this_id) = false) ∨
  (importContext (config self) = false ∧
   ∃ found, owner self this = Return found) →
  patch_context self this context h = (h, Return context) ∧
  patched_render self this context h = Template_render this context h.
Proof.
  intros Hwhy.
  assert (patch_context self this context h = (h, Return context)) as Hpatch.
  { unfold patch_context.
    destruct Hwhy as [Hp|[Hid|[(this_id & Hid & Hhandle)|[Himport [found Hfound]]]]].
    - unfold owner. by rewrite Hp.
    - unfold owner. rewrite Hid. by rewrite andb_false_r.
    - unfold owner. rewrite Hid. simpl. rewrite Hhandle.
      by destruct (negb _ && _).
    - rewrite Hfound, Himport. by destruct found. }
  split; [done|]. unfold patched_render. by rewrite Hpatch.
Qed.

(** X12: under every configuration and for every template, whether it
    returns or throws, the patch writes to no object that was there but
    those of the context of the entity it found (the merge and [setKeys]
    do write to these): an object that cannot be reached from that
    context is as it was.  No object goes away, and the context handed on
    is the caller's own reference, an object of the entity's context, or
    one that was not there before.  [_.cloneDeep] and
    [utils.defaultsDeep] are taken to do what [cloneDeep_fresh] and
    [defaultsDeep_local] say. *)
Theorem patch_context_writes_entity_context_only this context h
    (library : gset loc) :
  closed h library →
  (∀ found entity, owner self this = Return (Some found) →
                   select_variant found = Some entity →
                   getContext entity ∈ library) →
  (∀ l obj, l ∉ library → h !! l = Some obj →
            (patch_context self this context h).1 !! l = Some obj) ∧
  dom h ⊆ dom (patch_context self this context h).1 ∧
  (∀ context', (patch_context self this context h).2 = Return context' →
     context' = context ∨ context' ∈ library ∨ context' ∉ dom h).
Proof.
  intros Hclosed Hentity. unfold patch_context.
  destruct (owner self this) as [[found|]|]; simpl;
    [|split; [done|split; [done|by intros context' [= <-]; left]]
     |by repeat split].
  destruct (importContext (config self));
    [|split; [done|split; [done|by intros context' [= <-]; left]]].
  destruct (select_variant found) as [entity|] eqn:Hselect;
    [|by repeat split].
  destruct (import_context_local cloneDeep_is_fresh defaultsDeep_is_local
              entity context h library Hclosed)
    as (Hout & Hdom & Hctx); [by eapply Hentity|].
  split; [done|]. split; [done|]. intros context' Hreturn. right.
  by apply Hctx.
Qed.

(** X13: configured through [module.exports] with [importContext] left
    out (or off), which is the default, the patch never changes the
    context: the store is as it was and the context handed to the
    original render is the caller's. *)
Theorem default_config_leaves_context options this context h :
  config self = module_config options →
  (∀ given, options = Some given → opt_importContext given ≠ Some true) →
  (patch_context self this context h).1 = h ∧
  (∀ context', (patch_context self this context h).2 = Return context' →
     context' = context).
Proof.
  intros Hconfig Hoff.
  assert (importContext (config self) = false) as Himport.
  { rewrite Hconfig. unfold module_config.
    destruct options as [given|]; [|done]. specialize (Hoff given eq_refl).
    simpl. by destruct (opt_importContext given) as [[]|]. }
  unfold patch_context. rewrite Himport.
  destruct (owner self this) as [[found|]|]; simpl; split; try done;
    by intros context' [= <-].
Qed.

(** X17: a template known by the path of its view (relative to the
    library root) is patched as the template known by that view's handle
    is: both lead to the same entity, and so to the same context. *)
Theorem patch_context_by_path_as_by_handle this this' this_id view hd context h :
  template_id this = Some this_id →
  this_id ≠ "" →
  isHandle self this_id = false →
  find_by_path self (Some (Path_join (fullPath (source self)) this_id))
    = Some view →
  handle view = Some hd →
  isHandle self hd = true →
  template_id this' = Some hd →
  owner self this = owner self this' ∧
  patch_context self this context h = patch_context self this' context h.
Proof.
  intros Hid Hne Hpath Hview Hhd Hhandle Hid'.
  assert (owner self this = owner self this') as Howner.
  { apply truthy_string_true in Hne.
    assert (truthy_string hd = true) as Hhd_truthy.
    { unfold isHandle in Hhandle. by apply andb_prop in Hhandle as [-> _]. }
    unfold owner, owner_handle. rewrite Hid, Hid'.
    cbn [default from_option truthy]. unfold Datatypes.id.
    rewrite Hpath, Hview, Hhd, Hhandle, Hne.
    cbn [default from_option truthy]. unfold Datatypes.id.
    by rewrite Hhd_truthy. }
  split; [done|]. unfold patch_context. by rewrite Howner.
Qed.

End PatchedRenderFrame.

(** ** The prologue of [render], applied again *)

Lemma setEnv_insert key val context (h : heap) obj :
  h !! context = Some obj →
  setEnv key val context h = <[context := setEnv_object key val obj]> h.
Proof.
  intros Hc. unfold setEnv, setEnv_object, assign, deref. rewrite Hc. simpl.
  destruct (_ && _); [done|]. symmetry. by apply insert_id.
Qed.

Lemma setEnv_insert_insert key val context (h : heap) obj :
  setEnv key val context (<[context := obj]> h)
  = <[context := setEnv_object key val obj]> h.
Proof.
  rewrite (setEnv_insert key val context _ obj) by apply lookup_insert_eq.
  apply insert_insert_eq.
Qed.

Lemma get_setEnv_object_defined key key' val obj :
  get key' obj ≠ VUndefined →
  get key' (setEnv_object key val obj) = get key' obj.
Proof.
  intros Hdef. destruct (decide (key = key')) as [->|Hne].
  - rewrite get_setEnv_object_eq. by destruct (get key' obj).
  - by apply get_setEnv_object_ne.
Qed.

Lemma setEnv_object_keys key val obj :
  obj.*1 `prefix_of` (setEnv_object key val obj).*1.
Proof.
  unfold setEnv_object. destruct (_ && _); [|done].
  rewrite set_prop_keys. case_bool_decide; [done|]. by apply prefix_app_r.
Qed.

Lemma setEnv_object_settled key val obj :
  is_undefined (get key obj) && negb (is_undefined val) = false →
  setEnv_object key val obj = obj.
Proof. intros Hcond. unfold setEnv_object. by rewrite Hcond. Qed.

Section RenderAgain.
Context {Path : NodePath} {utils : FractalUtils} {RegExp : RegExpEngine}
  {Twig : TwigEngine}.
Variable self : TwigAdapter.

Lemma render_setEnv_insert context meta (h : heap) obj :
  h !! context = Some obj →
  render_setEnv self context meta h
  = <[context := render_setEnv_object self meta obj]> h.
Proof.
  intros Hc. unfold render_setEnv, render_setEnv_object.
  destruct (negb _); [|symmetry; by apply insert_id]. cbv zeta.
  rewrite (setEnv_insert "_self" _ _ h obj Hc).
  by rewrite !setEnv_insert_insert.
Qed.

(** X14: a context object that goes through [render] a second time keeps
    the reserved values of the first: a key the first call added is
    present at the second, which leaves it alone whatever its own [meta]
    says. *)
Theorem render_keeps_first_reserved_values context meta later h obj key val val' :
  h !! context = Some obj →
  pristine (config self) = false →
  (key, val) ∈ reserved self meta →
  (key, val') ∈ reserved self later →
  get key obj = VUndefined →
  val ≠ VUndefined →
  ∃ obj',
    render_setEnv self context later (render_setEnv self context meta h)
      !! context = Some obj' ∧
    get key obj' = val.
Proof.
  intros Hc Hp Hin Hin' Habsent Hval.
  exists (render_setEnv_object self later (render_setEnv_object self meta obj)).
  split.
  - apply render_setEnv_lookup. by apply render_setEnv_lookup.
  - rewrite (get_render_setEnv_object self later _ key val' Hin' Hp).
    rewrite (get_render_setEnv_object self meta obj key val Hin Hp).
    rewrite Habsent. simpl. by destruct val.
Qed.

(** X15: the prologue is idempotent: run twice with the same [meta] on
    the same context it leaves the heap as one run does. *)
Theorem render_setEnv_idempotent context meta h obj :
  h !! context = Some obj →
  render_setEnv self context meta (render_setEnv self context meta h)
  = render_setEnv self context meta h.
Proof.
  intros Hc. rewrite (render_setEnv_insert context meta h obj Hc).
  erewrite render_setEnv_insert; [|apply lookup_insert_eq].
  rewrite insert_insert_eq. f_equal.
  destruct (pristine (config self)) eqn:Hp.
  { unfold render_setEnv_object. by rewrite Hp. }
  set (once := render_setEnv_object self meta obj).
  assert (∀ key val, (key, val) ∈ reserved self meta →
            is_undefined (get key once) && negb (is_undefined val) = false)
    as Hsettled.
  { intros key val Hin. unfold once.
    rewrite (get_render_setEnv_object self meta obj key val Hin Hp).
    destruct (is_undefined (get key obj)) eqn:Hu; [|by rewrite Hu].
    by destruct (is_undefined val). }
  unfold render_setEnv_object at 1. rewrite Hp. simpl.
  rewrite (setEnv_object_settled "_self" (meta_self meta) once),
          (setEnv_object_settled "_target" (meta_target meta) once),
          (setEnv_object_settled "_env" (meta_env meta) once),
          (setEnv_object_settled "_config" (app_config self) once);
    try done; apply Hsettled; unfold reserved; set_solver.
Qed.

(** X16: the prologue takes nothing from the caller's context: every
    property is still there, in the order it had, with new ones after
    them; every value that was defined is the same; and a key that is not
    one of the four reads as before. *)
Theorem render_keeps_caller_properties context meta h obj :
  h !! context = Some obj →
  ∃ obj',
    render_setEnv self context meta h !! context = Some obj' ∧
    obj.*1 `prefix_of` obj'.*1 ∧
    (∀ key, get key obj ≠ VUndefined → get key obj' = get key obj) ∧
    (∀ key, key ∉ (reserved self meta).*1 → get key obj' = get key obj).
Proof.
  intros Hc. exists (render_setEnv_object self meta obj).
  split; [by apply render_setEnv_lookup|].
  split; [|split; [|apply get_render_setEnv_object_other]].
  - unfold render_setEnv_object. destruct (negb _); [|done].
    do 3 (etrans; [|apply setEnv_object_keys]). apply setEnv_object_keys.
  - intros key Hdef. unfold render_setEnv_object. destruct (negb _); [|done].
    set (o1 := setEnv_object "_self" (meta_self meta) obj).
    set (o2 := setEnv_object "_target" (meta_target meta) o1).
    set (o3 := setEnv_object "_env" (meta_env meta) o2).
    assert (get key o1 = get key obj) as H1
      by by apply get_setEnv_object_defined.
    assert (get key o2 = get key obj) as H2.
    { rewrite <- H1. apply get_setEnv_object_defined. by rewrite H1. }
    assert (get key o3 = get key obj) as H3.
    { rewrite <- H2. apply get_setEnv_object_defined. by rewrite H2. }
    rewrite <- H3. apply get_setEnv_object_defined. by rewrite H3.
Qed.

End RenderAgain.

(** ** The further properties on the small library *)

Section FurtherExamples.
#[local] Existing Instance Demo.Path.
#[local] Existing Instance Demo.lodash.
#[local] Existing Instance Demo.utils.
#[local] Existing Instance Demo.RegExp.
#[local] Existing Instance Demo.Twig.

Lemma loader_precompiled_witness :
  ("<p>{{ title }}</p>" ≠ "" →
     loader (Demo.adapter false) "/atoms/button/button.twig" Demo.precompiledParams =
       Return (NewTemplate (mkParams (id Demo.precompiledParams)
                              (Some "<p>{{ title }}</p>")
                              (Some "<p>{{ title }}</p>")))) ∧
  ("<p>{{ title }}</p>" = "" →
     loader (Demo.adapter false) "/atoms/button/button.twig" Demo.precompiledParams =
       match loader_view (Demo.adapter false) "/atoms/button/button.twig" with
       | Return (Some view) =>
           Return (NewTemplate
                     (mkParams (id Demo.precompiledParams) (Some "")
                        (Some (content view))))
       | Return None =>
           Throw (Error (notFoundMessage "/atoms/button/button.twig"))
       | Throw e => Throw e
       end).
Proof.
  apply (loader_precompiled (Demo.adapter false) "/atoms/button/button.twig"
           Demo.precompiledParams "<p>{{ title }}</p>").
  reflexivity.
Defined.

(** An empty source is no source: the menu is looked up by its handle. *)
Example loader_empty_precompiled :
  loader (Demo.adapter false) "@menu" (mkParams (Some "@menu") (Some "") None)
  = Return (NewTemplate (mkParams (Some "@menu") (Some "")
                           (Some (content Demo.menu)))).
Proof. reflexivity. Qed.

Lemma loader_handle_witness :
  loader (Demo.adapter false) "@button" Demo.noParams =
    match getView (Demo.adapter false) "@button" with
    | Some view =>
        Return (NewTemplate
                  (mkParams (id Demo.noParams) (precompiled Demo.noParams)
                     (Some (content view))))
    | None => Throw (Error (notFoundMessage "@button"))
    end.
Proof.
  apply (loader_handle (Demo.adapter false) "@button" Demo.noParams);
    reflexivity.
Defined.

Lemma loader_throw_conditions_witness :
  (∀ chunk, startsWith "/atoms/missing/missing.twig" "/" = true →
            chunk ∈ split "/" "/atoms/missing/missing.twig" →
            includes firstLevelFolderNames chunk = true →
            loader_view (Demo.adapter false) "/atoms/missing/missing.twig"
              = Throw (ReferenceError "source") ∧
            loader (Demo.adapter false) "/atoms/missing/missing.twig" Demo.noParams
              = Throw (ReferenceError "source")) ∧
  (loader_view (Demo.adapter false) "/atoms/missing/missing.twig" = Return None →
   loader (Demo.adapter false) "/atoms/missing/missing.twig" Demo.noParams
     = Throw (Error (notFoundMessage "/atoms/missing/missing.twig"))).
Proof.
  apply (loader_throw_conditions (Demo.adapter false)
           "/atoms/missing/missing.twig" Demo.noParams).
  reflexivity.
Defined.

(** Both throws on the small library: a rooted include of a button that
    exists, and a relative include of a template that does not. *)
Example loader_throws_both :
  loader (Demo.adapter false) "/atoms/button/button.twig" Demo.noParams
    = Throw (ReferenceError "source") ∧
  loader (Demo.adapter false) "pages/home.twig" Demo.noParams
    = Throw (Error (notFoundMessage "pages/home.twig")).
Proof. split; reflexivity. Qed.

Lemma isHandle_rooted_witness :
  handlePrefix (config Demo.slashAdapter) = "" ∨
  startsWith (handlePrefix (config Demo.slashAdapter)) "/" = true.
Proof.
  apply (isHandle_rooted Demo.slashAdapter "/button"); reflexivity.
Defined.

Lemma setKeys_keys_listed_witness :
  ∃ obj1,
    setKeys Demo.nested = Return obj1 ∧
    get "_keys" obj1 =
      VArray (match arrayLikeLength Demo.nested with
              | Some _ => []
              | None =>
                  VString <$>
                    List.filter
                      (λ key, negb (startsWith key "_") && negb (String.eqb key ""))
                      Demo.nested.*1
              end) ∧
    (arrayLikeLength Demo.nested ≠ None →
     obj1 = set_prop "_keys" (VArray []) Demo.nested) ∧
    (∀ nested, arrayLikeLength Demo.nested = None →
       get "" Demo.nested = VObject nested →
       ∃ nested1, setKeys nested = Return nested1 ∧
                  get "" obj1 = VObject nested1 ∧
                  get "_keys" nested1 ≠ VUndefined).
Proof.
  eexists. split; [reflexivity|].
  apply (setKeys_keys_listed Demo.nested). reflexivity.
Defined.

(** The object under the empty key, and an array-like object, after
    [setKeys]. *)
Example setKeys_empty_key_and_array_like :
  (obj1 ← setKeys Demo.nested; Return (get "" obj1, get "_keys" obj1))
  = Return (VObject [("anonymous", VNull); ("_keys", VArray [VString "anonymous"])],
            VArray [VString "title"; VString "hero"; VString "tags"; VString "list"]) ∧
  setKeys [("length", VNumber 2); ("first", VObject [])]
  = Return [("length", VNumber 2); ("first", VObject []); ("_keys", VArray [])].
Proof. split; reflexivity. Qed.

Lemma setKeys_frame_witness :
  ∃ obj1,
    setKeys Demo.nested = Return obj1 ∧
    obj1.*1 = (if bool_decide ("_keys" ∈ Demo.nested.*1) then Demo.nested.*1
               else Demo.nested.*1 ++ ["_keys"]) ∧
    (∀ key, key ≠ "_keys" → (∀ props, get key Demo.nested ≠ VObject props) →
            get key obj1 = get key Demo.nested) ∧
    (∀ key props, key ≠ "_keys" → get key Demo.nested = VObject props →
                  ∃ props', get key obj1 = VObject props').
Proof.
  eexists. split; [reflexivity|].
  apply (setKeys_frame Demo.nested). reflexivity.
Defined.

(** A length no array can have, two objects down. *)
Example setKeys_too_long :
  setKeys [("title", VString "Home");
           ("hero", VObject [("slides", VObject [("length", VNumber 4294967296)])])]
  = Throw RangeError ∧
  setKeys [("title", VString "Home");
           ("_hero", VObject [("slides", VObject [("length", VNumber 4294967296)])])]
  = Return [("title", VString "Home");
            ("_hero", VObject [("slides", VObject [("length", VNumber 4294967296)])]);
            ("_keys", VArray [VString "title"])].
Proof. split; reflexivity. Qed.

(** Only the path of the button is known: its handle entry stays. *)
Lemma unCache_keeps_other_entries_witness :
  unCache (Demo.adapter false)
    (ChangedPath "/lib/components/atoms/button/button.twig") Demo.registry
    !! "@button" = Demo.registry !! "@button" ∧
  unCache (Demo.adapter false)
    (ChangedPath "/lib/components/atoms/button/button.twig") Demo.registry
    ⊆ Demo.registry.
Proof.
  apply (unCache_keeps_other_entries (Demo.adapter false)
           (ChangedPath "/lib/components/atoms/button/button.twig")
           Demo.registry "@button"); discriminate.
Defined.

Lemma patched_render_passes_through_witness :
  patch_context (Demo.adapter false) (Demo.compiled Demo.button) 1%positive
    Demo.pageStore = (Demo.pageStore, Return 1%positive) ∧
  patched_render (Demo.adapter false) (Demo.compiled Demo.button) 1%positive
    Demo.pageStore
  = Template_render (Demo.compiled Demo.button) 1%positive Demo.pageStore.
Proof.
  apply (patched_render_passes_through (Demo.adapter false)
           (Demo.compiled Demo.button) 1%positive Demo.pageStore).
  right; right; right. split; [reflexivity|]. eexists. reflexivity.
Defined.

Lemma patch_context_writes_entity_context_only_witness :
  (∀ l obj, l ∉ Demo.libraryObjects → Demo.pageStore !! l = Some obj →
            (patch_context (Demo.adapter true) (Demo.compiled Demo.button)
               1%positive Demo.pageStore).1 !! l = Some obj) ∧
  dom Demo.pageStore ⊆
    dom (patch_context (Demo.adapter true) (Demo.compiled Demo.button)
           1%positive Demo.pageStore).1 ∧
  (∀ context',
     (patch_context (Demo.adapter true) (Demo.compiled Demo.button) 1%positive
        Demo.pageStore).2 = Return context' →
     context' = 1%positive ∨ context' ∈ Demo.libraryObjects ∨
     context' ∉ dom Demo.pageStore).
Proof.
  apply (patch_context_writes_entity_context_only (Demo.adapter true)
           cloneDeep_tree_fresh defaultsDeep_tree_local
           (Demo.compiled Demo.button) 1%positive Demo.pageStore
           Demo.libraryObjects).
  - apply closedb_closed. vm_compute. reflexivity.
  - intros found entity Hfound Hselect. vm_compute in Hfound.
    injection Hfound as <-. injection Hselect as <-.
    apply (bool_decide_unpack _). vm_compute. exact I.
Defined.

(** The object of the library that the patch does write to: the icon of
    the button's own context gets a [_keys]. *)
Example patch_context_writes_library_object :
  Demo.pageStore !! 4%positive = Some [("name", Data (VString "check"))] ∧
  (patch_context (Demo.adapter true) (Demo.compiled Demo.button) 1%positive
     Demo.pageStore).1 !! 4%positive
  = Some [("name", Data (VString "check"));
          ("_keys", Data (VArray [VString "name"]))].
Proof. by vm_compute. Qed.

Lemma patch_context_by_path_as_by_handle_witness :
  owner (Demo.adapter true)
    (NewTemplate (mkParams (Some "atoms/button/button.twig") None None))
  = owner (Demo.adapter true) (Demo.compiled Demo.button) ∧
  patch_context (Demo.adapter true)
    (NewTemplate (mkParams (Some "atoms/button/button.twig") None None))
    1%positive Demo.pageStore
  = patch_context (Demo.adapter true) (Demo.compiled Demo.button) 1%positive
      Demo.pageStore.
Proof.
  apply (patch_context_by_path_as_by_handle (Demo.adapter true)
           (NewTemplate (mkParams (Some "atoms/button/button.twig") None None))
           (Demo.compiled Demo.button) "atoms/button/button.twig" Demo.button
           "@button" 1%positive Demo.pageStore);
    reflexivity || discriminate.
Defined.

Lemma default_config_leaves_context_witness :
  (patch_context (Demo.adapter false) (Demo.compiled Demo.button) 1%positive
     Demo.pageStore).1 = Demo.pageStore ∧
  (∀ context',
     (patch_context (Demo.adapter false) (Demo.compiled Demo.button) 1%positive
        Demo.pageStore).2 = Return context' →
     context' = 1%positive).
Proof.
  apply (default_config_leaves_context (Demo.adapter false) None
           (Demo.compiled Demo.button) 1%positive Demo.pageStore);
    [reflexivity|discriminate].
Defined.

Lemma render_keeps_first_reserved_values_witness :
  ∃ obj',
    render_setEnv (Demo.adapter false) 1%positive Demo.laterMeta
      (render_setEnv (Demo.adapter false) 1%positive Demo.meta Demo.pageHeap)
      !! 1%positive = Some obj' ∧
    get "_target" obj' = VString "preview".
Proof.
  apply (render_keeps_first_reserved_values (Demo.adapter false) 1%positive
           Demo.meta Demo.laterMeta Demo.pageHeap Demo.page "_target"
           (VString "preview") (VString "export"));
    [reflexivity|reflexivity| | |reflexivity|discriminate];
    apply list_elem_of_further, list_elem_of_here.
Defined.

(** The later render adds what the first had no value for, and only that. *)
Example render_setEnv_page_again :
  render_setEnv (Demo.adapter false) 1%positive Demo.laterMeta
    (render_setEnv (Demo.adapter false) 1%positive Demo.meta Demo.pageHeap)
  = {[ 1%positive :=
         [("title", VString "Home");
          ("_self", VObject [("handle", VString "home")]);
          ("_target", VString "preview");
          ("_config", VObject [("project", VString "demo")]);
          ("_env", VString "production")] ]}.
Proof. by vm_compute. Qed.

Lemma render_setEnv_idempotent_witness :
  render_setEnv (Demo.adapter false) 1%positive Demo.meta
    (render_setEnv (Demo.adapter false) 1%positive Demo.meta Demo.pageHeap)
  = render_setEnv (Demo.adapter false) 1%positive Demo.meta Demo.pageHeap.
Proof.
  apply (render_setEnv_idempotent (Demo.adapter false) 1%positive Demo.meta
           Demo.pageHeap Demo.page).
  reflexivity.
Defined.

Lemma render_keeps_caller_properties_witness :
  ∃ obj',
    render_setEnv (Demo.adapter false) 1%positive Demo.meta Demo.pageHeap
      !! 1%positive = Some obj' ∧
    Demo.page.*1 `prefix_of` obj'.*1 ∧
    (∀ key, get key Demo.page ≠ VUndefined → get key obj' = get key Demo.page) ∧
    (∀ key, key ∉ (reserved (Demo.adapter false) Demo.meta).*1 →
            get key obj' = get key Demo.page).
Proof.
  apply (render_keeps_caller_properties (Demo.adapter false) 1%positive
           Demo.meta Demo.pageHeap Demo.page).
  reflexivity.
Defined.

End FurtherExamples.
